(** * Receptor: Unix-socket proxy services and random-string utility

    A shallow embedding of [pkg/services/unix_proxy.go] and
    [pkg/utils/randstr.go].

    The proxy functions talk to the outside world (sockets, the Receptor
    network, the logger) and start goroutines that loop forever, so they are
    embedded as interaction trees over an event type [proxyE] with one
    constructor per external call; [go f()] is the event [Go] carrying the
    body of the goroutine.  A small scheduler-and-oracle semantics runs a
    pool of such trees and records which goroutine made which call. *)

From stdpp Require Import base gmap strings list.
From ITree Require Import ITree.
From Stdlib Require Import ZArith Lia Ascii.

Notation "x <- t1 ;; t2" := (ITree.bind t1 (fun x => t2))
  (at level 100, t1 at next level, t2 at level 200, right associativity)
  : itree_scope.
Notation "t1 ;; t2" := (ITree.bind t1 (fun _ => t2))
  (at level 100, t2 at level 200, right associativity) : itree_scope.
Local Open Scope itree_scope.

(* ===================================================================== *)
(** ** Go values used by the proxy code *)
(* ===================================================================== *)

(** Go [error] values.  [errorString] is what [errors.New] and a
    [fmt.Errorf] without [%w] build; [wrapError] is what [fmt.Errorf] with
    [%w] builds: a new message that keeps the wrapped error reachable. *)
Inductive error : Type :=
| errorString (s : string)
| wrapError (msg : string) (err : error).

(** [err.Error()] *)
Definition Error (e : error) : string :=
  match e with
  | errorString s => s
  | wrapError msg _ => msg
  end.

(** [errors.Unwrap(err)] *)
Definition Unwrap (e : error) : option error :=
  match e with
  | errorString _ => None
  | wrapError _ err => Some err
  end.

(** [fmt.Errorf(prefix + "%s", err)]: the text of [err] is pasted in. *)
Definition Errorf_s (prefix : string) (err : error) : error :=
  errorString (prefix +:+ Error err).

(** [fmt.Errorf(prefix + "%w", err)]: as above, and [err] is wrapped. *)
Definition Errorf_w (prefix : string) (err : error) : error :=
  wrapError (prefix +:+ Error err) err.

(** [os.FileMode] is a [uint32]; [os.FileMode(i)] of an [int] keeps the low
    32 bits. *)
Definition FileMode (i : Z) : Z := (i mod 2 ^ 32)%Z.

(** Handles of the collaborators.  They are opaque to the proxy code, which
    only passes them on. *)
Definition Netceptor := nat.
Definition Listener := nat.
Definition Lock := nat.
Definition Conn := nat.
Definition TLSConfig := nat.
Definition ClientConf := nat.
Definition ServerConf := nat.

(** [netceptor.MainInstance] *)
Definition MainInstance : Netceptor := 0.

(* ===================================================================== *)
(** ** External calls *)
(* ===================================================================== *)

(** One constructor per call the proxy code makes; the index is what the
    call returns.  A Go pair [(v, err)] with [err] tested against [nil] is
    the sum [v + error]. *)
Inductive proxyE : Type -> Type :=
| UnixSocketListen (filename : string) (permissions : Z)
  : proxyE (Listener * Lock + error)           (* utils.UnixSocketListen *)
| Accept (li : Listener) : proxyE (Conn + error)             (* li.Accept() *)
| Dial (s : Netceptor) (node service : string) (tlscfg : TLSConfig)
  : proxyE (Conn + error)                                        (* s.Dial *)
| ListenAndAdvertise (s : Netceptor) (service : string) (tlscfg : TLSConfig)
    (tags : gmap string string)
  : proxyE (Listener + error)                      (* s.ListenAndAdvertise *)
| net_Dial (network address : string) : proxyE (Conn + error)  (* net.Dial *)
| Unlock (lock : Lock) : proxyE unit                       (* lock.Unlock() *)
| Close (c : Conn) : proxyE unit                               (* c.Close() *)
| BridgeConns (c1 : Conn) (c1Name : string) (c2 : Conn) (c2Name : string)
  : proxyE unit                                        (* utils.BridgeConns *)
| logger_Error (format : string) (err : error) : proxyE unit
| logger_Debug (format : string) : proxyE unit
| GetClientTLSConfig (s : Netceptor) (name expectedHostName hostType : string)
  : proxyE (TLSConfig + error)
| GetServerTLSConfig (s : Netceptor) (name : string)
  : proxyE (TLSConfig + error)
| ClientConf_TLSConfig (c : ClientConf) : proxyE (TLSConfig + error)
| ServerConf_TLSConfig (c : ServerConf) : proxyE (TLSConfig + error)
| Go (body : itree proxyE unit) : proxyE unit.                 (* go body() *)

(** A goroutine. *)
Definition thread := itree proxyE unit.

Definition call {X} (e : proxyE X) : itree proxyE X := ITree.trigger e.

(* ===================================================================== *)
(** ** pkg/services/unix_proxy.go *)
(* ===================================================================== *)

Definition newline : string := String (ascii_of_nat 10) EmptyString.

Section Inbound.
Variables (s : Netceptor) (node rservice : string) (tlscfg : TLSConfig).

(** The inner [go func() { ... }()] of [UnixProxyServiceInbound], one per
    accepted connection [uc]: dial, then ([inboundDialed]) log the failure
    or bridge. *)
Definition inboundDialed (uc : Conn) (d : Conn + error) : thread :=
  match d with
  | inr err =>
      call (logger_Error "Error connecting on Receptor network: %s" err);;
      Ret tt
  | inl qc =>
      call (BridgeConns uc "unix socket service" qc "receptor connection")
  end.

Definition inboundConn (uc : Conn) : thread :=
  d <- call (Dial s node rservice tlscfg);;
  inboundDialed uc d.

(** One turn of the [for] loop: [inl tt] goes round again, [inr tt] is
    [return].  [inboundAccepted] is the part after [uli.Accept()]. *)
Definition inboundAccepted (a : Conn + error) : itree proxyE (unit + unit) :=
  match a with
  | inr err =>
      call (logger_Error "Error accepting Unix socket connection: %s" err);;
      Ret (inr tt)
  | inl uc =>
      call (Go (inboundConn uc));;
      Ret (inl tt)
  end.

Definition inboundAccept (uli : Listener) (_ : unit)
  : itree proxyE (unit + unit) :=
  a <- call (Accept uli);;
  inboundAccepted a.

(** The outer [go func() { defer lock.Unlock(); for { ... } }()]: the
    deferred call runs when the loop returns. *)
Definition inboundLoop (uli : Listener) (lock : Lock) : thread :=
  ITree.iter (inboundAccept uli) tt;;
  call (Unlock lock).
End Inbound.

Definition UnixProxyServiceInbound (s : Netceptor) (filename : string)
  (permissions : Z) (node rservice : string) (tlscfg : TLSConfig)
  : itree proxyE (option error) :=
  r <- call (UnixSocketListen filename permissions);;
  match r with
  | inr err => Ret (Some (Errorf_s "error opening Unix socket: " err))
  | inl (uli, lock) =>
      call (Go (inboundLoop s node rservice tlscfg uli lock));;
      Ret None
  end.

(** The map literal handed to [ListenAndAdvertise]. *)
Definition outboundTags (filename : string) : gmap string string :=
  <["type" := "Unix Proxy"]> (<["filename" := filename]> ∅).

Section Outbound.
Variable filename : string.

(** One turn of the [for] loop of [UnixProxyServiceOutbound]; [continue]
    and falling off the end of the body are both [inl tt], [return] is
    [inr tt].  [outboundAccepted] is the part after [qli.Accept()],
    [outboundDialed] the part after [net.Dial]. *)
Definition outboundBridge (qc uc : Conn) : thread :=
  call (BridgeConns qc "receptor service" uc "unix socket connection").

Definition outboundDialed (qc : Conn) (d : Conn + error)
  : itree proxyE (unit + unit) :=
  match d with
  | inr err =>
      call (logger_Error ("Error connecting via Unix socket: %s" +:+ newline)
              err);;
      Ret (inl tt)
  | inl uc =>
      call (Go (outboundBridge qc uc));;
      Ret (inl tt)
  end.

Definition outboundAccepted (a : Conn + error) : itree proxyE (unit + unit) :=
  match a with
  | inr err =>
      call (logger_Error
              ("Error accepting connection on Receptor network: %s" +:+ newline)
              err);;
      Ret (inr tt)
  | inl qc =>
      d <- call (net_Dial "unix" filename);;
      outboundDialed qc d
  end.

Definition outboundAccept (qli : Listener) (_ : unit)
  : itree proxyE (unit + unit) :=
  a <- call (Accept qli);;
  outboundAccepted a.

Definition outboundLoop (qli : Listener) : thread :=
  ITree.iter (outboundAccept qli) tt.
End Outbound.

Definition UnixProxyServiceOutbound (s : Netceptor) (service : string)
  (tlscfg : TLSConfig) (filename : string) : itree proxyE (option error) :=
  r <- call (ListenAndAdvertise s service tlscfg (outboundTags filename));;
  match r with
  | inr err => Ret (Some (Errorf_s "error listening on Receptor network: " err))
  | inl qli =>
      call (Go (outboundLoop filename qli));;
      Ret None
  end.

(** Modelled from the spec: the command-line library that fills a field in
    from its [default:] tag is not among the sources; the specification
    gives the default permission bits as owner read/write only, which is
    the tag's text read as an octal numeral. *)
Definition octal (s : string) : Z :=
  fold_left (fun acc c => (acc * 8 + (Z.of_nat (nat_of_ascii c) - 48))%Z)
            (String.list_ascii_of_string s) 0%Z.

(** The command-line configuration objects and their [Run] methods. *)
Module unixProxyInboundCfg.
Record t : Type := Build {
  Filename : string;
  Permissions : Z;
  RemoteNode : string;
  RemoteService : string;
  TLS : string
}.

(** The tag [default:"0600"] of [Permissions]. *)
Definition Permissions_default : Z := octal "0600".

Definition Run (cfg : t) : itree proxyE (option error) :=
  call (logger_Debug ("Running Unix socket inbound proxy service %v" +:+ newline));;
  r <- call (GetClientTLSConfig MainInstance (TLS cfg) (RemoteNode cfg) "receptor");;
  match r with
  | inr err => Ret (Some err)
  | inl tlscfg =>
      UnixProxyServiceInbound MainInstance (Filename cfg)
        (FileMode (Permissions cfg)) (RemoteNode cfg) (RemoteService cfg) tlscfg
  end.
End unixProxyInboundCfg.

Module unixProxyOutboundCfg.
Record t : Type := Build {
  Service : string;
  Filename : string;
  TLS : string
}.

Definition Run (cfg : t) : itree proxyE (option error) :=
  call (logger_Debug ("Running Unix socket inbound proxy service %s" +:+ newline));;
  r <- call (GetServerTLSConfig MainInstance (TLS cfg));;
  match r with
  | inr err => Ret (Some err)
  | inl tlscfg =>
      UnixProxyServiceOutbound MainInstance (Service cfg) tlscfg (Filename cfg)
  end.
End unixProxyOutboundCfg.

(** The declarative proxy definitions and their [setup] methods. *)
Module UnixInProxy.
Record t : Type := Build {
  File : string;
  Permissions : option Z;      (* *int: [None] is the nil pointer *)
  RemoteNode : string;
  RemoteService : string;
  TLS : ClientConf
}.

Definition setup (p : t) (nc : Netceptor) : itree proxyE (option error) :=
  let perms := 384%Z (* 0o600 *) in
  let perms := match Permissions p with
               | Some v => v
               | None => perms
               end in
  r <- call (ClientConf_TLSConfig (TLS p));;
  match r with
  | inr err =>
      Ret (Some (Errorf_w
                   ("could not create tls config for unix inbound proxy "
                      +:+ File p +:+ ": ") err))
  | inl t0 =>
      UnixProxyServiceInbound nc (File p) (FileMode perms)
        (RemoteNode p) (RemoteService p) t0
  end.
End UnixInProxy.

Module UnixOutProxy.
Record t : Type := Build {
  Service : string;
  File : string;
  TLS : ServerConf
}.

Definition setup (p : t) (nc : Netceptor) : itree proxyE (option error) :=
  r <- call (ServerConf_TLSConfig (TLS p));;
  match r with
  | inr err =>
      Ret (Some (Errorf_w
                   ("could not create tls config for unix outbound proxy "
                      +:+ File p +:+ ": ") err))
  | inl t0 => UnixProxyServiceOutbound nc (Service p) t0 (File p)
  end.
End UnixOutProxy.

(* ===================================================================== *)
(** ** pkg/utils/randstr.go *)
(* ===================================================================== *)

(** A Go call either returns or panics. *)
Inductive outcome (A : Type) : Type :=
| Returns (a : A)
| Panics (msg : string).
Arguments Returns {A} a.
Arguments Panics {A} msg.

(** [make([]byte, len, cap)] with sizes known only at run time: the Go
    specification has it panic when [len] is negative or larger than [cap].
    (Running out of memory for a huge [cap] is outside this model.) *)
Definition makeslice (len cap : Z) : outcome (list ascii) :=
  if (len <? 0)%Z then Panics "makeslice: len out of range"
  else if (cap <? len)%Z then Panics "makeslice: cap out of range"
  else Returns (repeat zero (Z.to_nat len)).

(** [s[i]] on a string: a byte, or the index-out-of-range panic. *)
Definition index (s : string) (i : Z) : outcome ascii :=
  if (i <? 0)%Z then Panics "index out of range"
  else match String.get (Z.to_nat i) s with
       | Some c => Returns c
       | None => Panics "index out of range"
       end.

Definition charset : string :=
  "0123456789abcdefghijklmnopqrstuvwxyzABCDEFGHIJKLMNOPQRSTUVWXYZ".

Section RandStr.
(** [crypto/rand]: the state of [rand.Reader], and
    [rand.Int(rand.Reader, max)] as a function of it, giving the number
    drawn, or an error, and the reader afterwards. *)
Variable Reader : Type.
Variable rand_Int : Reader -> Z -> (Z + error) * Reader.

(** The [for] loop of [RandomString] with [n] turns left.  The error of
    [rand.Int] is thrown away ([idx, _ :=]); when there is one, [idx] is
    nil and [idx.Int64()] panics. *)
Fixpoint RandomString_loop (n : nat) (r : Reader) (randbytes : list ascii)
  : outcome (list ascii * Reader) :=
  match n with
  | O => Returns (randbytes, r)
  | S n' =>
      let '(res, r') := rand_Int r (Z.of_nat (String.length charset)) in
      match res with
      | inr _ => Panics "invalid memory address or nil pointer dereference"
      | inl idx =>
          match index charset idx with
          | Panics msg => Panics msg
          | Returns c => RandomString_loop n' r' (randbytes ++ [c])
          end
      end
  end.

(** [i] runs from 0 while [i < length]: [Z.to_nat length] turns.  Go's
    [int] is read as a [Z]. *)
Definition RandomString (r : Reader) (length : Z) : outcome (string * Reader) :=
  match makeslice 0 length with
  | Panics msg => Panics msg
  | Returns randbytes =>
      match RandomString_loop (Z.to_nat length) r randbytes with
      | Panics msg => Panics msg
      | Returns (bs, r') => Returns (String.string_of_list_ascii bs, r')
      end
  end.

(** [fmt.Sprintf("%s%s", prefix, RandomString(length))] *)
Definition RandomStringWithPrefix (r : Reader) (prefix : string) (length : Z)
  : outcome (string * Reader) :=
  match RandomString r length with
  | Panics msg => Panics msg
  | Returns (str, r') => Returns (prefix +:+ str, r')
  end.
End RandStr.

(* ===================================================================== *)
(** ** Running goroutines *)
(* ===================================================================== *)

(** A completed call: the call and what it returned. *)
Inductive event : Type :=
| Called {X : Type} (e : proxyE X) (ret : X).

(** What the outside world answers to a call at this moment; [None]: the
    call has not returned yet (the caller stays blocked in it). *)
Definition answers := forall X : Type, proxyE X -> option X.

(** [go] and the logger return at once; every other call waits for the
    world. *)
Definition answer (w : answers) {X} (e : proxyE X) : option X :=
  match e in proxyE T return option T with
  | Go _ => Some tt
  | logger_Error _ _ => Some tt
  | logger_Debug _ => Some tt
  | e' => w _ e'
  end.

(** The goroutine a call starts. *)
Definition spawned {X} (e : proxyE X) : list thread :=
  match e with
  | Go body => [body]
  | _ => []
  end.

(** One step of one goroutine: the goroutine afterwards, the call it
    completed (if any) and the goroutine it started (if any).  A finished or
    blocked goroutine stays as it is. *)
Definition tstep {R} (w : answers) (t : itree proxyE R)
  : itree proxyE R * list event * list thread :=
  match observe t with
  | RetF _ => (t, [], [])
  | TauF t' => (t', [], [])
  | VisF e k =>
      match answer w e with
      | None => (t, [], [])
      | Some x => (k x, [Called e x], spawned e)
      end
  end.

(** [finished t]: the goroutine has returned. *)
Definition finished {R} (t : itree proxyE R) : bool :=
  match observe t with
  | RetF _ => true
  | _ => false
  end.

(** What it returned. *)
Definition returned {R} (t : itree proxyE R) : option R :=
  match observe t with
  | RetF r => Some r
  | _ => None
  end.

(** A single goroutine run on its own for the steps [ws], each with the
    world's answers at that step: final state, calls completed, goroutines
    started. *)
Fixpoint trun {R} (ws : list answers) (t : itree proxyE R)
  : itree proxyE R * list event * list thread :=
  match ws with
  | [] => (t, [], [])
  | w :: ws' =>
      let '(t1, evs1, new1) := tstep w t in
      let '(t2, evs2, new2) := trun ws' t1 in
      (t2, evs1 ++ evs2, new1 ++ new2)
  end.

(** The pool of goroutines, with the log of completed calls, each tagged
    with the index of the goroutine that made it.  Goroutines are never
    removed, so an index names a goroutine for good. *)
Record pool : Type := Pool {
  threads : list thread;
  log : list (nat * event)
}.

(** Goroutine [i] takes one step. *)
Definition step (w : answers) (i : nat) (p : pool) : pool :=
  match threads p !! i with
  | None => p
  | Some t =>
      let '(t', evs, new) := tstep w t in
      Pool (<[i := t']> (threads p) ++ new)
           (log p ++ map (pair i) evs)
  end.

(** A schedule is a list of (goroutine to step, answers of the world). *)
Definition schedule := list (nat * answers).

Fixpoint run (sc : schedule) (p : pool) : pool :=
  match sc with
  | [] => p
  | (i, w) :: sc' => run sc' (step w i p)
  end.

(** The calls goroutine [i] has completed, oldest first. *)
Fixpoint calls_of (i : nat) (l : list (nat * event)) : list event :=
  match l with
  | [] => []
  | (j, ev) :: l' =>
      if Nat.eqb j i then ev :: calls_of i l' else calls_of i l'
  end.

(** [n] steps of one goroutine against an unchanging world. *)
Definition exec {R} (n : nat) (w : answers) (t : itree proxyE R)
  : itree proxyE R * list event * list thread :=
  trun (repeat w n) t.

(** Reading the outcome of [trun] and [exec]. *)
Definition ret_of {R} (x : itree proxyE R * list event * list thread)
  : option R := returned x.1.1.
Definition calls_in {R} (x : itree proxyE R * list event * list thread)
  : list event := x.1.2.
Definition started_by {R} (x : itree proxyE R * list event * list thread)
  : list thread := x.2.

(* ===================================================================== *)
(** ** Reading a log *)
(* ===================================================================== *)

(** Kinds of calls. *)
Definition is_Accept (ev : event) : bool :=
  match ev with
  | Called (Accept _) _ => true
  | _ => false
  end.

Definition is_Accept_error (ev : event) : bool :=
  match ev with
  | Called (Accept _) (inr _) => true
  | _ => false
  end.

Definition is_Unlock (lock : Lock) (ev : event) : bool :=
  match ev with
  | Called (Unlock l) _ => bool_decide (l = lock)
  | _ => false
  end.

Definition is_dial (ev : event) : bool :=
  match ev with
  | Called (Dial _ _ _ _) _ => true
  | Called (net_Dial _ _) _ => true
  | _ => false
  end.

Definition is_dial_error (ev : event) : bool :=
  match ev with
  | Called (Dial _ _ _ _) (inr _) => true
  | Called (net_Dial _ _) (inr _) => true
  | _ => false
  end.

Definition is_Bridge (ev : event) : bool :=
  match ev with
  | Called (BridgeConns _ _ _ _) _ => true
  | _ => false
  end.

Definition is_Go (ev : event) : bool :=
  match ev with
  | Called (Go _) _ => true
  | _ => false
  end.


(** Modelled from the spec: [utils.BridgeConns] is not among the sources;
    the specification of StreamBridge says that on termination, for any
    reason, both connections are closed.  So the calls after which
    connection [c] is closed are [c.Close()] and a [BridgeConns] that was
    handed [c]. *)
Definition closes (c : Conn) (ev : event) : bool :=
  match ev with
  | Called (Close c') _ => bool_decide (c' = c)
  | Called (BridgeConns c1 _ c2 _) _ => bool_decide (c1 = c) || bool_decide (c2 = c)
  | _ => false
  end.

Definition is_logger_Error (ev : event) : bool :=
  match ev with
  | Called (logger_Error _ _) _ => true
  | _ => false
  end.

(** The permissions asked of [utils.UnixSocketListen]. *)
Definition listen_permissions (ev : event) : option Z :=
  match ev with
  | Called (UnixSocketListen _ permissions) _ => Some permissions
  | _ => None
  end.

(** The discovery metadata handed to [ListenAndAdvertise]. *)
Definition advertised (ev : event) : option (gmap string string) :=
  match ev with
  | Called (ListenAndAdvertise _ _ _ tags) _ => Some tags
  | _ => None
  end.

(** How many of the calls satisfy [P]. *)
Definition count (P : event -> bool) (l : list event) : nat :=
  length (List.filter P l).

(** The calls made after the first one that satisfies [P]. *)
Fixpoint after (P : event -> bool) (l : list event) : list event :=
  match l with
  | [] => []
  | ev :: l' => if P ev then l' else after P l'
  end.

Definition finished_at (i : nat) (p : pool) : bool :=
  match threads p !! i with
  | Some t => finished t
  | None => false
  end.

(** The goroutine is inside a dial that has not returned. *)
Definition in_dial {R} (t : itree proxyE R) : bool :=
  match observe t with
  | VisF (Dial _ _ _ _) _ => true
  | VisF (net_Dial _ _) _ => true
  | _ => false
  end.

(** The goroutine is inside an [Accept] that has not returned. *)
Definition in_Accept {R} (t : itree proxyE R) : bool :=
  match observe t with
  | VisF (Accept _) _ => true
  | _ => false
  end.

Definition in_Accept_at (i : nat) (p : pool) : bool :=
  match threads p !! i with
  | Some t => in_Accept t
  | None => false
  end.

Definition in_dial_at (i : nat) (p : pool) : bool :=
  match threads p !! i with
  | Some t => in_dial t
  | None => false
  end.

(** The calls goroutine [i] completed between pool [p] and the later pool
    [p']. *)
Definition fresh_calls (i : nat) (p p' : pool) : list event :=
  drop (length (calls_of i (log p))) (calls_of i (log p')).

(** [Accept] returned connection [c]. *)
Definition accepts (c : Conn) (ev : event) : bool :=
  match ev with
  | Called (Accept _) (inl c') => Nat.eqb c' c
  | _ => false
  end.

(** The error of a failed dial. *)
Definition dial_error (ev : event) : option error :=
  match ev with
  | Called (Dial _ _ _ _) (inr err) => Some err
  | Called (net_Dial _ _) (inr err) => Some err
  | _ => None
  end.

(** 0o600 and the nine permission bits [rwxrwxrwx] of a mode. *)
Definition mode_0600 : Z := (6 * 8 ^ 2 + 0 * 8 + 0)%Z.
Definition perm_bits (m : Z) : list bool :=
  map (Z.testbit m) [8; 7; 6; 5; 4; 3; 2; 1; 0]%Z.

(* ===================================================================== *)
(** ** Scripted worlds *)
(* ===================================================================== *)

(** A world that gives the same reply to every call of one kind. *)
Record replies : Type := Replies {
  on_UnixSocketListen : option (Listener * Lock + error);
  on_ListenAndAdvertise : option (Listener + error);
  on_Accept : option (Conn + error);
  on_Dial : option (Conn + error);
  on_net_Dial : option (Conn + error);
  on_TLS : option (TLSConfig + error);
  on_BridgeConns : option unit
}.

Definition world (r : replies) : answers :=
  fun X e =>
    match e in proxyE T return option T with
    | UnixSocketListen _ _ => on_UnixSocketListen r
    | ListenAndAdvertise _ _ _ _ => on_ListenAndAdvertise r
    | Accept _ => on_Accept r
    | Dial _ _ _ _ => on_Dial r
    | net_Dial _ _ => on_net_Dial r
    | GetClientTLSConfig _ _ _ _ => on_TLS r
    | GetServerTLSConfig _ _ => on_TLS r
    | ClientConf_TLSConfig _ => on_TLS r
    | ServerConf_TLSConfig _ => on_TLS r
    | BridgeConns _ _ _ _ => on_BridgeConns r
    | Unlock _ => Some tt
    | Close _ => Some tt
    | logger_Error _ _ => Some tt
    | logger_Debug _ => Some tt
    | Go _ => Some tt
    end.

(** The world [rep], except that a connection [c] is waiting at the
    listener. *)
Definition offering (c : Conn) (rep : replies) : replies :=
  Replies (on_UnixSocketListen rep) (on_ListenAndAdvertise rep)
          (Some (inl c)) (on_Dial rep) (on_net_Dial rep) (on_TLS rep)
          (on_BridgeConns rep).



(* ===================================================================== *)
(** ** Program points of the accept loops *)
(* ===================================================================== *)

(** What [ITree.iter] does with the verdict of one turn. *)
Definition iter_next (body : unit -> itree proxyE (unit + unit))
  (lr : unit + unit) : thread :=
  match lr with
  | inl l => Tau (ITree.iter body l)
  | inr r => Ret r
  end.

Section InboundPoints.
Variables (s : Netceptor) (node rservice : string) (tlscfg : TLSConfig).
Variables (uli : Listener) (lock : Lock).

(** The inbound accept goroutine in the middle of a turn, [rest] being
    what is left of the turn. *)
Definition inbound_at (rest : itree proxyE (unit + unit)) : thread :=
  (lr <- rest;; iter_next (inboundAccept s node rservice tlscfg uli) lr);;
  call (Unlock lock).

(** The calls of the completed turns that accepted [ucs]. *)
Definition inbound_rounds (ucs : list Conn) : list event :=
  flat_map (fun uc => [Called (Accept uli) (inl uc);
                       Called (Go (inboundConn s node rservice tlscfg uc)) tt])
           ucs.

Definition inbound_accept_failed (err : error) : list event :=
  [Called (Accept uli) (inr err);
   Called (logger_Error "Error accepting Unix socket connection: %s" err) tt].

(** [inbound_loop_inv ucs t h]: the accept goroutine is at point [t],
    has completed the calls [h], and has started a goroutine for each of
    [ucs]. *)
Inductive inbound_loop_inv : list Conn -> thread -> list event -> Prop :=
| ili_head ucs :
    inbound_loop_inv ucs (inboundLoop s node rservice tlscfg uli lock)
      (inbound_rounds ucs)
| ili_accepted ucs a :
    inbound_loop_inv ucs
      (inbound_at (x <- Ret a;; inboundAccepted s node rservice tlscfg x))
      (inbound_rounds ucs ++ [Called (Accept uli) a])
| ili_started ucs uc :
    inbound_loop_inv (ucs ++ [uc])
      (inbound_at (_ <- Ret tt;; Ret (inl tt)))
      (inbound_rounds (ucs ++ [uc]))
| ili_logged ucs err :
    inbound_loop_inv ucs
      (inbound_at (_ <- Ret tt;; Ret (inr tt)))
      (inbound_rounds ucs ++ inbound_accept_failed err)
| ili_unlocked ucs err :
    inbound_loop_inv ucs (Ret tt)
      (inbound_rounds ucs ++ inbound_accept_failed err
         ++ [Called (Unlock lock) tt]).

(** The goroutine of connection [uc]. *)
Inductive inbound_conn_inv (uc : Conn) : thread -> list event -> Prop :=
| ici_start :
    inbound_conn_inv uc (inboundConn s node rservice tlscfg uc) []
| ici_dialed d :
    inbound_conn_inv uc
      (x <- Ret d;; inboundDialed uc x)
      [Called (Dial s node rservice tlscfg) d]
| ici_logged err :
    inbound_conn_inv uc (_ <- Ret tt;; Ret tt)
      [Called (Dial s node rservice tlscfg) (inr err);
       Called (logger_Error "Error connecting on Receptor network: %s" err) tt]
| ici_bridged qc :
    inbound_conn_inv uc (Ret tt)
      [Called (Dial s node rservice tlscfg) (inl qc);
       Called (BridgeConns uc "unix socket service" qc "receptor connection") tt].
End InboundPoints.

Section OutboundPoints.
Variables (filename : string) (qli : Listener).

Definition outbound_at (rest : itree proxyE (unit + unit)) : thread :=
  lr <- rest;; iter_next (outboundAccept filename qli) lr.

(** A completed turn: the accepted connection and how the dial went. *)
Definition outbound_round (r : Conn * (Conn + error)) : list event :=
  [Called (Accept qli) (inl r.1);
   Called (net_Dial "unix" filename) r.2;
   match r.2 with
   | inl uc => Called (Go (outboundBridge r.1 uc)) tt
   | inr err =>
       Called (logger_Error
                 ("Error connecting via Unix socket: %s" +:+ newline) err) tt
   end].

Definition outbound_rounds (rs : list (Conn * (Conn + error))) : list event :=
  flat_map outbound_round rs.

(** The pairs that were handed to a bridge goroutine. *)
Definition bridged (rs : list (Conn * (Conn + error))) : list (Conn * Conn) :=
  flat_map (fun r => match r.2 with
                     | inl uc => [(r.1, uc)]
                     | inr _ => []
                     end) rs.

Definition outbound_accept_failed (err : error) : list event :=
  [Called (Accept qli) (inr err);
   Called (logger_Error
             ("Error accepting connection on Receptor network: %s" +:+ newline)
             err) tt].

Inductive outbound_loop_inv
  : list (Conn * Conn) -> thread -> list event -> Prop :=
| oli_head rs :
    outbound_loop_inv (bridged rs) (outboundLoop filename qli)
      (outbound_rounds rs)
| oli_accepted rs a :
    outbound_loop_inv (bridged rs)
      (outbound_at (x <- Ret a;; outboundAccepted filename x))
      (outbound_rounds rs ++ [Called (Accept qli) a])
| oli_dialed rs qc d :
    outbound_loop_inv (bridged rs)
      (outbound_at (x <- Ret d;; outboundDialed qc x))
      (outbound_rounds rs
         ++ [Called (Accept qli) (inl qc); Called (net_Dial "unix" filename) d])
| oli_turned rs :
    outbound_loop_inv (bridged rs)
      (outbound_at (_ <- Ret tt;; Ret (inl tt)))
      (outbound_rounds rs)
| oli_returned rs err :
    outbound_loop_inv (bridged rs)
      (outbound_at (_ <- Ret tt;; Ret (inr tt)))
      (outbound_rounds rs ++ outbound_accept_failed err).

(** The bridge goroutine of the pair [qu]. *)
Inductive outbound_bridge_inv (qu : Conn * Conn) : thread -> list event -> Prop :=
| obi_start : outbound_bridge_inv qu (outboundBridge qu.1 qu.2) []
| obi_done :
    outbound_bridge_inv qu (Ret tt)
      [Called (BridgeConns qu.1 "receptor service"
                           qu.2 "unix socket connection") tt].
End OutboundPoints.

(* ===================================================================== *)
(** ** The pool of one director *)
(* ===================================================================== *)

(** Goroutine 0 is the accept loop, which has started the goroutines
    [1 ..] for [xs], one each and in this order; [loop_inv] and [child_inv]
    tie the point each goroutine is at to the calls it has completed. *)
Definition director_inv {A : Type}
  (loop_inv : list A -> thread -> list event -> Prop)
  (child_inv : A -> thread -> list event -> Prop) (p : pool) : Prop :=
  exists t0 ts xs,
    threads p = t0 :: ts /\
    loop_inv xs t0 (calls_of 0 (log p)) /\
    length ts = length xs /\
    (forall j t x, ts !! j = Some t -> xs !! j = Some x ->
                   child_inv x t (calls_of (S j) (log p))) /\
    (forall i, length (threads p) <= i -> calls_of i (log p) = []).

(* ===================================================================== *)
(** ** Sample runs *)
(* ===================================================================== *)

Definition no_route : error := errorString "no route to node".


(** Every dial fails; nobody is waiting at the listener. *)
Definition unreachable : replies :=
  Replies None None None (Some (inr no_route)) (Some (inr no_route)) None None.

(** The inbound director accepts connection 7, starts its goroutine, goes
    back to [Accept]; then the goroutine dials, fails and logs. *)
Definition inbound_example : pool :=
  run ((0, world (offering 7 unreachable))
         :: repeat (0, world unreachable) 3 ++ repeat (1, world unreachable) 2)
      (Pool [inboundLoop 0 "node" "service" 0 1 2] []).

(** The outbound director accepts connection 7, dials the socket, fails,
    logs and goes back to [Accept]. *)
Definition outbound_example : pool :=
  run ((0, world (offering 7 unreachable)) :: repeat (0, world unreachable) 4)
      (Pool [outboundLoop "/run/app.sock" 1] []).



(** A reader for running the code: a counter that is drawn from and then
    advanced. *)
Definition counter_Int (r : Z) (max : Z) : (Z + error) * Z :=
  (inl (r mod max)%Z, (r + 7)%Z).

(* ===================================================================== *)
(** ** More ways of reading a log *)
(* ===================================================================== *)

(** The connection a successful [Accept] returned. *)
Definition accepted_conn (ev : event) : option Conn :=
  match ev with
  | Called (Accept _) (inl c) => Some c
  | _ => None
  end.

(** The connection a successful dial returned. *)
Definition dialled_conn (ev : event) : option Conn :=
  match ev with
  | Called (Dial _ _ _ _) (inl c) => Some c
  | Called (net_Dial _ _) (inl c) => Some c
  | _ => None
  end.

(** The arguments of a [BridgeConns] call. *)
Definition bridged_by (ev : event) : option (Conn * string * Conn * string) :=
  match ev with
  | Called (BridgeConns c1 n1 c2 n2) _ => Some (c1, n1, c2, n2)
  | _ => None
  end.

(** The arguments of a [logger.Error] call. *)
Definition logged (ev : event) : option (string * error) :=
  match ev with
  | Called (logger_Error format err) _ => Some (format, err)
  | _ => None
  end.

(** A successful [Accept]. *)
Definition is_Accept_ok (ev : event) : bool :=
  is_Accept ev && negb (is_Accept_error ev).

(** The pairs (connection accepted last, connection then dialled) of the
    successful [net.Dial]s of a log, oldest first; [last] is the connection
    accepted last before the log starts. *)
Fixpoint paired (last : option Conn) (h : list event) : list (Conn * Conn) :=
  match h with
  | [] => []
  | ev :: h' =>
      match accepted_conn ev with
      | Some qc => paired (Some qc) h'
      | None =>
          match dialled_conn ev, last with
          | Some uc, Some qc => (qc, uc) :: paired last h'
          | _, _ => paired last h'
          end
      end
  end.

(** The world [rep], except that a connection [c] is waiting at the
    listener, [net.Dial] returns [d], and bridges never return. *)
Definition answering (c : Conn) (d : Conn + error) (rep : replies) : replies :=
  Replies (on_UnixSocketListen rep) (on_ListenAndAdvertise rep)
          (Some (inl c)) (on_Dial rep) (Some d) (on_TLS rep) None.

(** What each failure of the inbound director has to be logged as. *)
Definition inbound_failure (ev : event) : option (string * error) :=
  match ev with
  | Called (Accept _) (inr err) =>
      Some ("Error accepting Unix socket connection: %s", err)
  | Called (Dial _ _ _ _) (inr err) =>
      Some ("Error connecting on Receptor network: %s", err)
  | _ => None
  end.

(** The same for the outbound director. *)
Definition outbound_failure (ev : event) : option (string * error) :=
  match ev with
  | Called (Accept _) (inr err) =>
      Some ("Error accepting connection on Receptor network: %s" +:+ newline, err)
  | Called (net_Dial _ _) (inr err) =>
      Some ("Error connecting via Unix socket: %s" +:+ newline, err)
  | _ => None
  end.

(** The calls the goroutines of the inbound director may make, with the
    arguments they may make them with. *)
Definition inbound_call_ok (s : Netceptor) (node rservice : string)
  (tlscfg : TLSConfig) (uli : Listener) (lock : Lock) (ev : event) : bool :=
  match ev with
  | Called (Accept li) _ => Nat.eqb li uli
  | Called (Unlock l) _ => Nat.eqb l lock
  | Called (Dial s' node' service' tlscfg') _ =>
      Nat.eqb s' s && String.eqb node' node && String.eqb service' rservice
      && Nat.eqb tlscfg' tlscfg
  | Called (BridgeConns _ n1 _ n2) _ =>
      String.eqb n1 "unix socket service" && String.eqb n2 "receptor connection"
  | Called (Go _) _ => true
  | Called (logger_Error _ _) _ => true
  | _ => false
  end.

(** The same for the outbound director. *)
Definition outbound_call_ok (filename : string) (qli : Listener) (ev : event)
  : bool :=
  match ev with
  | Called (Accept li) _ => Nat.eqb li qli
  | Called (net_Dial network address) _ =>
      String.eqb network "unix" && String.eqb address filename
  | Called (BridgeConns _ n1 _ n2) _ =>
      String.eqb n1 "receptor service" && String.eqb n2 "unix socket connection"
  | Called (Go _) _ => true
  | Called (logger_Error _ _) _ => true
  | _ => false
  end.

(* ===================================================================== *)
(** ** The draws of [RandomString] *)
(* ===================================================================== *)

Section RandStrDraws.
Variable Reader : Type.
Variable rand_Int : Reader -> Z -> (Z + error) * Reader.


End RandStrDraws.


(* ===================================================================== *)
(** * Properties *)
(* ===================================================================== *)

(** ** The log *)

Lemma calls_of_app i l1 l2 :
  calls_of i (l1 ++ l2) = calls_of i l1 ++ calls_of i l2.
Proof.
  induction l1 as [|[j ev] l1 IH]; simpl; [reflexivity|].
  destruct (Nat.eqb j i); simpl; rewrite IH; reflexivity.
Qed.

Lemma calls_of_own i evs : calls_of i (map (pair i) evs) = evs.
Proof.
  induction evs as [|ev evs IH]; simpl; [reflexivity|].
  rewrite Nat.eqb_refl, IH. reflexivity.
Qed.

Lemma calls_of_other i j evs : j <> i -> calls_of i (map (pair j) evs) = [].
Proof.
  intros Hne. induction evs as [|ev evs IH]; simpl; [reflexivity|].
  destruct (Nat.eqb_spec j i); [contradiction|assumption].
Qed.

Lemma calls_of_In i ev l : In (i, ev) l <-> In ev (calls_of i l).
Proof.
  induction l as [|[j ev'] l IH]; simpl; [tauto|].
  destruct (Nat.eqb_spec j i) as [->|Hne]; simpl.
  - rewrite <- IH. split; intros [H|H]; auto.
    + inversion H. auto.
    + left. congruence.
  - rewrite <- IH. split; [intros [H|H]; [inversion H; contradiction|auto]|auto].
Qed.

(** ** One goroutine *)

Lemma tstep_finished {R} w (t : itree proxyE R) :
  finished t = true -> tstep w t = (t, [], []).
Proof.
  unfold finished, tstep. destruct (observe t); intros; [reflexivity|discriminate..].
Qed.

Lemma trun_finished {R} ws (t : itree proxyE R) :
  finished t = true -> trun ws t = (t, [], []).
Proof.
  intros Hfin. induction ws as [|w ws IH]; simpl; [reflexivity|].
  rewrite (tstep_finished w t Hfin), IH. reflexivity.
Qed.

(** ** The pool of a director *)

Section Director.
Context {A : Type}.
Variable loop_inv : list A -> thread -> list event -> Prop.
Variable child : A -> thread.
Variable child_inv : A -> thread -> list event -> Prop.

Hypothesis loop_step :
  forall w xs t h t' evs new,
    loop_inv xs t h -> tstep w t = (t', evs, new) ->
    (new = [] /\ loop_inv xs t' (h ++ evs)) \/
    (exists x, new = [child x] /\ loop_inv (xs ++ [x]) t' (h ++ evs)).
Hypothesis child_start : forall x, child_inv x (child x) [].
Hypothesis child_step :
  forall w x t h t' evs new,
    child_inv x t h -> tstep w t = (t', evs, new) ->
    new = [] /\ child_inv x t' (h ++ evs).

Lemma director_inv_step w i p :
  director_inv loop_inv child_inv p ->
  director_inv loop_inv child_inv (step w i p).
Proof.
  intros (t0 & ts & xs & Hth & Hloop & Hlen & Hch & Hlog).
  unfold step. destruct (threads p !! i) as [t|] eqn:Hi.
  2:{ exists t0, ts, xs. auto. }
  destruct (tstep w t) as [[t' evs] new] eqn:Hstep.
  rewrite Hth in Hi |- *. destruct i as [|j]; simpl in Hi.
  - (* the accept loop steps *)
    injection Hi as <-.
    destruct (loop_step _ _ _ _ _ _ _ Hloop Hstep) as [[-> Hinv]|(x & -> & Hinv)].
    + exists t', ts, xs. simpl. rewrite app_nil_r.
      rewrite Hth in Hlog. simpl in Hlog.
      split; [reflexivity|].
      split; [rewrite calls_of_app, calls_of_own; exact Hinv|].
      split; [exact Hlen|]. split.
      * intros k tk x Htk Hx. rewrite calls_of_app, calls_of_other by lia.
        rewrite app_nil_r. eauto.
      * intros k Hk. rewrite calls_of_app, Hlog by lia.
        rewrite calls_of_other by lia. reflexivity.
    + exists t', (ts ++ [child x]), (xs ++ [x]). simpl.
      rewrite Hth in Hlog. simpl in Hlog.
      split; [reflexivity|].
      split; [rewrite calls_of_app, calls_of_own; exact Hinv|].
      split; [rewrite !length_app; simpl; lia|]. split.
      * intros k tk y Htk Hy. rewrite calls_of_app, calls_of_other by lia.
        rewrite app_nil_r.
        destruct (decide (k < length ts)) as [Hlt|Hge].
        -- rewrite lookup_app_l in Htk by lia.
           rewrite lookup_app_l in Hy by lia. eauto.
        -- rewrite lookup_app_r in Htk by lia.
           rewrite lookup_app_r in Hy by lia.
           rewrite Hlen in Htk.
           destruct (k - length xs) as [|?] eqn:Hk; simpl in *; [|discriminate].
           injection Htk as <-. injection Hy as <-.
           rewrite Hlog by lia. apply child_start.
      * intros k Hk. rewrite length_app in Hk. simpl in Hk.
        rewrite calls_of_app, Hlog by lia.
        rewrite calls_of_other by lia. reflexivity.
  - (* goroutine [S j] steps *)
    assert (Hj : j < length xs) by (rewrite <- Hlen; eapply lookup_lt_Some; eauto).
    destruct (lookup_lt_is_Some_2 xs j Hj) as [x Hx].
    destruct (child_step _ _ _ _ _ _ _ (Hch _ _ _ Hi Hx) Hstep) as [-> Hinv].
    exists t0, (<[j := t']> ts), xs. simpl. rewrite app_nil_r.
    rewrite Hth in Hlog. simpl in Hlog.
    split; [reflexivity|].
    split; [rewrite calls_of_app, calls_of_other by lia; rewrite app_nil_r; exact Hloop|].
    split; [rewrite length_insert; exact Hlen|]. split.
    + intros k tk y Htk Hy. rewrite calls_of_app.
      destruct (decide (k = j)) as [->|Hne].
      * rewrite list_lookup_insert_eq in Htk by lia.
        injection Htk as <-. rewrite calls_of_own.
        rewrite Hx in Hy. injection Hy as <-. exact Hinv.
      * rewrite list_lookup_insert_ne in Htk by lia.
        rewrite calls_of_other by lia. rewrite app_nil_r. eauto.
    + intros k Hk. rewrite length_insert in Hk.
      rewrite calls_of_app, Hlog by lia.
      rewrite calls_of_other by lia. reflexivity.
Qed.

Lemma director_inv_run sc p :
  director_inv loop_inv child_inv p ->
  director_inv loop_inv child_inv (run sc p).
Proof.
  revert p. induction sc as [|[i w] sc IH]; intros p Hp; simpl; [exact Hp|].
  apply IH, director_inv_step, Hp.
Qed.

Lemma director_inv_init t0 :
  loop_inv [] t0 [] -> director_inv loop_inv child_inv (Pool [t0] []).
Proof.
  intros H0. exists t0, [], []. simpl. repeat split; auto.
  intros j t x Hj. discriminate.
Qed.
End Director.

Lemma after_app_skip P l tail :
  forallb (fun ev => negb (P ev)) l = true -> after P (l ++ tail) = after P tail.
Proof.
  induction l as [|ev l IH]; simpl; [reflexivity|].
  destruct (P ev); simpl; [discriminate|exact IH].
Qed.

Lemma existsb_none P (l : list event) :
  forallb (fun ev => negb (P ev)) l = true -> existsb P l = false.
Proof.
  induction l as [|ev l IH]; simpl; [reflexivity|].
  destruct (P ev); simpl; [discriminate|exact IH].
Qed.

Lemma count_app P l1 l2 : count P (l1 ++ l2) = count P l1 + count P l2.
Proof. unfold count. rewrite List.filter_app, length_app. reflexivity. Qed.

Lemma count_none P l :
  forallb (fun ev => negb (P ev)) l = true -> count P l = 0.
Proof.
  unfold count. induction l as [|ev l IH]; simpl; [reflexivity|].
  destruct (P ev); simpl; [discriminate|exact IH].
Qed.

(** Stepping one goroutine of the pool several times in a row is running
    it on its own. *)
Lemma run_alone i ws p t :
  threads p !! i = Some t ->
  run (map (pair i) ws) p =
  Pool (<[i := (trun ws t).1.1]> (threads p) ++ (trun ws t).2)
       (log p ++ map (pair i) (trun ws t).1.2).
Proof.
  revert p t. induction ws as [|w ws IH]; intros [ths lg] t Hi; simpl in *.
  - rewrite list_insert_id by exact Hi. rewrite !app_nil_r. reflexivity.
  - unfold step at 1. simpl. rewrite Hi.
    destruct (tstep w t) as [[t1 evs1] new1] eqn:Hstep.
    assert (Hi1 : (<[i := t1]> ths ++ new1) !! i = Some t1).
    { rewrite lookup_app_l by (rewrite length_insert; eapply lookup_lt_Some; eauto).
      apply list_lookup_insert_eq. eapply lookup_lt_Some; eauto. }
    rewrite (IH (Pool (<[i := t1]> ths ++ new1) (lg ++ map (pair i) evs1)) t1 Hi1).
    simpl. destruct (trun ws t1) as [[t2 evs2] new2]. simpl.
    rewrite insert_app_l by (rewrite length_insert; eapply lookup_lt_Some; eauto).
    rewrite list_insert_insert_eq, map_app, <- !app_assoc. reflexivity.
Qed.

Lemma fresh_calls_alone i ws p t :
  threads p !! i = Some t ->
  fresh_calls i p (run (map (pair i) ws) p) = (trun ws t).1.2.
Proof.
  intros Hi. unfold fresh_calls. rewrite (run_alone i ws p t Hi). simpl.
  rewrite calls_of_app, calls_of_own. apply drop_app_length.
Qed.

(** What the invariant says about goroutine 0 and about goroutine [S j]. *)
Lemma director_loop {A} (loop_inv : list A -> thread -> list event -> Prop)
  child_inv p :
  director_inv loop_inv child_inv p ->
  exists t0 xs, threads p !! 0 = Some t0 /\
                loop_inv xs t0 (calls_of 0 (log p)) /\
                length (threads p) = S (length xs).
Proof.
  intros (t0 & ts & xs & Hth & Hloop & Hlen & _).
  exists t0, xs. rewrite Hth. simpl. auto.
Qed.

Lemma director_child {A} (loop_inv : list A -> thread -> list event -> Prop)
  child_inv p j :
  director_inv loop_inv child_inv p ->
  (exists t x, threads p !! S j = Some t /\
               child_inv x t (calls_of (S j) (log p))) \/
  (threads p !! S j = None /\ calls_of (S j) (log p) = []).
Proof.
  intros (t0 & ts & xs & Hth & _ & Hlen & Hch & Hlog).
  rewrite Hth in *. simpl in *.
  destruct (ts !! j) as [t|] eqn:Hj.
  - left. assert (Hx : j < length xs) by (rewrite <- Hlen; eapply lookup_lt_Some; eauto).
    destruct (lookup_lt_is_Some_2 xs j Hx) as [x Hx'].
    exists t, x. split; [reflexivity|]. eapply Hch; eauto.
  - right. split; [reflexivity|]. apply Hlog.
    apply lookup_ge_None in Hj. lia.
Qed.

Lemma finished_at_lookup i p t :
  threads p !! i = Some t -> finished_at i p = finished t.
Proof.
  intros Hi. unfold finished_at, thread in *. rewrite Hi. reflexivity.
Qed.

Lemma in_Accept_at_lookup i p t :
  threads p !! i = Some t -> in_Accept_at i p = in_Accept t.
Proof.
  intros Hi. unfold in_Accept_at, thread in *. rewrite Hi. reflexivity.
Qed.

Lemma in_dial_at_lookup i p t :
  threads p !! i = Some t -> in_dial_at i p = in_dial t.
Proof.
  intros Hi. unfold in_dial_at, thread in *. rewrite Hi. reflexivity.
Qed.

Lemma trun_blocked {R} n w (t : itree proxyE R) :
  tstep w t = (t, [], []) -> trun (repeat w n) t = (t, [], []).
Proof.
  intros Hstep. induction n as [|n IH]; simpl; [reflexivity|].
  rewrite Hstep, IH. reflexivity.
Qed.

(** A property of every logged call, by who made it. *)
Lemma director_log_forall {A} (loop_inv : list A -> thread -> list event -> Prop)
  child_inv (P0 Pc : event -> bool) p :
  director_inv loop_inv child_inv p ->
  (forall xs t h, loop_inv xs t h -> forallb P0 h = true) ->
  (forall x t h, child_inv x t h -> forallb Pc h = true) ->
  forallb (fun x => if Nat.eqb x.1 0 then P0 x.2 else Pc x.2) (log p) = true.
Proof.
  intros Hp H0 Hc. apply forallb_forall. intros [i ev] Hin.
  apply calls_of_In in Hin. simpl. destruct i as [|j]; simpl.
  - destruct (director_loop _ _ _ Hp) as (t0 & xs & _ & Hloop & _).
    apply H0 in Hloop. rewrite forallb_forall in Hloop. auto.
  - destruct (director_child _ _ _ j Hp) as [(t & x & _ & Hchild)|[_ Hnil]].
    + apply Hc in Hchild. rewrite forallb_forall in Hchild. auto.
    + rewrite Hnil in Hin. destruct Hin.
Qed.

(** Running against an unchanging world, one step at a time. *)
Lemma exec_step {R} n w (t t1 : itree proxyE R) evs new :
  tstep w t = (t1, evs, new) ->
  exec (S n) w t =
  ((exec n w t1).1.1, evs ++ (exec n w t1).1.2, new ++ (exec n w t1).2).
Proof.
  intros Hstep. unfold exec. simpl. rewrite Hstep.
  destruct (trun (repeat w n) t1) as [[t2 evs2] new2]. reflexivity.
Qed.

Lemma exec_finished {R} n w (t : itree proxyE R) :
  finished t = true -> exec n w t = (t, [], []).
Proof. apply trun_finished. Qed.

Lemma exec_blocked {R} n w (t : itree proxyE R) :
  tstep w t = (t, [], []) -> exec n w t = (t, [], []).
Proof. apply trun_blocked. Qed.

(** ** The inbound director *)

Section InboundFacts.
Variables (s : Netceptor) (node rservice : string) (tlscfg : TLSConfig).
Variables (uli : Listener) (lock : Lock).

Local Abbreviation loop_inv := (inbound_loop_inv s node rservice tlscfg uli lock).
Local Abbreviation conn_inv := (inbound_conn_inv s node rservice tlscfg).
Local Abbreviation rounds := (inbound_rounds s node rservice tlscfg uli).

Lemma inbound_rounds_snoc ucs uc :
  rounds (ucs ++ [uc]) =
  rounds ucs ++ [Called (Accept uli) (inl uc);
                 Called (Go (inboundConn s node rservice tlscfg uc)) tt].
Proof.
  unfold inbound_rounds. rewrite flat_map_app. simpl. reflexivity.
Qed.

Lemma inbound_loop_step w ucs t h t' evs new :
  loop_inv ucs t h ->
  tstep w t = (t', evs, new) ->
  (new = [] /\ loop_inv ucs t' (h ++ evs)) \/
  (exists uc, new = [inboundConn s node rservice tlscfg uc] /\
              loop_inv (ucs ++ [uc]) t' (h ++ evs)).
Proof.
  intros Hinv Hstep. unfold tstep in Hstep. destruct Hinv.
  - (* at the head of the loop: Accept *)
    cbn in Hstep. destruct (w _ (Accept uli)) as [a|];
      injection Hstep as <- <- <-; left; (split; [reflexivity|]).
    + apply ili_accepted.
    + rewrite app_nil_r. apply ili_head.
  - destruct a as [uc|err]; cbn in Hstep; injection Hstep as <- <- <-.
    + (* go func() *)
      right. exists uc. split; [reflexivity|].
      rewrite <- app_assoc. simpl. rewrite <- inbound_rounds_snoc.
      apply ili_started.
    + (* logger.Error *)
      left. split; [reflexivity|]. rewrite <- app_assoc. apply ili_logged.
  - (* round again *)
    cbn in Hstep. injection Hstep as <- <- <-. left. split; [reflexivity|].
    rewrite app_nil_r. apply ili_head.
  - (* the deferred lock.Unlock() *)
    cbn in Hstep. destruct (w _ (Unlock lock)) as [[]|];
      injection Hstep as <- <- <-; left; (split; [reflexivity|]).
    + rewrite <- app_assoc. apply ili_unlocked.
    + rewrite app_nil_r. apply ili_logged.
  - cbn in Hstep. injection Hstep as <- <- <-. left. split; [reflexivity|].
    rewrite app_nil_r. apply ili_unlocked.
Qed.

Lemma inbound_conn_step w uc t h t' evs new :
  conn_inv uc t h ->
  tstep w t = (t', evs, new) ->
  new = [] /\ conn_inv uc t' (h ++ evs).
Proof.
  intros Hinv Hstep. unfold tstep in Hstep. destruct Hinv.
  - cbn in Hstep. destruct (w _ (Dial s node rservice tlscfg)) as [d|];
      injection Hstep as <- <- <-; (split; [reflexivity|]).
    + apply ici_dialed.
    + apply ici_start.
  - destruct d as [qc|err]; cbn in Hstep.
    + destruct (w _ (BridgeConns uc "unix socket service" qc "receptor connection"))
        as [[]|]; injection Hstep as <- <- <-; (split; [reflexivity|]).
      * apply ici_bridged.
      * apply ici_dialed.
    + injection Hstep as <- <- <-. split; [reflexivity|]. apply ici_logged.
  - cbn in Hstep. injection Hstep as <- <- <-. split; [reflexivity|].
    apply ici_logged.
  - cbn in Hstep. injection Hstep as <- <- <-. split; [reflexivity|].
    apply ici_bridged.
Qed.

(** Every pool the director can reach from its accept goroutine. *)
Lemma inbound_reachable sc :
  director_inv loop_inv conn_inv
    (run sc (Pool [inboundLoop s node rservice tlscfg uli lock] [])).
Proof.
  apply (director_inv_run loop_inv (inboundConn s node rservice tlscfg) conn_inv).
  - apply inbound_loop_step.
  - apply ici_start.
  - apply inbound_conn_step.
  - apply director_inv_init. apply (ili_head s node rservice tlscfg uli lock []).
Qed.
Lemma inbound_rounds_all P ucs :
  (forall uc, P (Called (Accept uli) (inl uc)) = true) ->
  (forall uc, P (Called (Go (inboundConn s node rservice tlscfg uc)) tt) = true) ->
  forallb P (rounds ucs) = true.
Proof.
  intros HA HG. induction ucs as [|uc ucs IH]; simpl; [reflexivity|].
  rewrite HA, HG, IH. reflexivity.
Qed.

Lemma inbound_loop_terminal ucs t h :
  loop_inv ucs t h ->
  forallb (fun ev => negb (is_Accept ev)) (after is_Accept_error h) = true /\
  count (is_Unlock lock) h = count (is_Unlock lock) (after is_Accept_error h) /\
  count (is_Unlock lock) h = (if finished t then 1 else 0) /\
  implb (finished t) (existsb is_Accept_error h) = true /\
  implb (existsb is_Accept_error h) (negb (in_Accept t)) = true.
Proof.
  assert (HnoErr : forall l, forallb (fun ev => negb (is_Accept_error ev)) (rounds l) = true)
    by (intros l; apply inbound_rounds_all; reflexivity).
  assert (HnoUn : forall l, forallb (fun ev => negb (is_Unlock lock ev)) (rounds l) = true)
    by (intros l; apply inbound_rounds_all; reflexivity).
  intros Hinv. destruct Hinv as [ucs|ucs [uc|err]|ucs uc|ucs err|ucs err];
    rewrite ?existsb_app, ?count_app, ?after_app_skip, ?(existsb_none _ _ (HnoErr _)),
      ?(count_none _ _ (HnoUn _)) by apply HnoErr;
    try rewrite <- (app_nil_r (rounds _)) at 1 2;
    rewrite ?after_app_skip, ?(count_none _ _ (HnoUn _)) by apply HnoErr;
    cbn; rewrite ?bool_decide_eq_true_2 by reflexivity; cbn; auto.
Qed.

Lemma inbound_loop_finishes ucs t h (w : answers) :
  loop_inv ucs t h ->
  existsb is_Accept_error h = true ->
  w _ (Unlock lock) = Some tt ->
  finished (trun [w; w] t).1.1 = true.
Proof.
  assert (HnoErr : forall l, existsb is_Accept_error (rounds l) = false)
    by (intros l; apply existsb_none, inbound_rounds_all; reflexivity).
  intros Hinv Herr Hw.
  destruct Hinv as [ucs|ucs [uc|err]|ucs uc|ucs err|ucs err];
    rewrite ?existsb_app, ?HnoErr in Herr; try discriminate Herr;
    cbn; unfold tstep; cbn; rewrite ?Hw; reflexivity.
Qed.

Lemma inbound_loop_accepts ucs t h (w : answers) c :
  loop_inv ucs t h ->
  existsb is_Accept_error h = false ->
  w _ (Accept uli) = Some (inl c) ->
  existsb (accepts c) (trun [w; w; w] t).1.2 = true.
Proof.
  intros Hinv Herr Hw.
  destruct Hinv as [ucs|ucs [uc|err]|ucs uc|ucs err|ucs err];
    rewrite ?existsb_app in Herr; cbn in Herr;
    rewrite ?orb_true_r in Herr; try discriminate Herr;
    cbn; unfold tstep; cbn; rewrite ?Hw; cbn; rewrite ?Hw; cbn;
    rewrite ?Nat.eqb_refl, ?orb_true_r; reflexivity.
Qed.


Lemma inbound_conn_facts uc t h :
  conn_inv uc t h ->
  forallb (fun ev => is_dial ev || is_Bridge ev || is_logger_Error ev) h = true /\
  count is_dial h <= 1 /\
  (forall c, implb (existsb is_dial_error h)
                   (negb (existsb (closes c) h) && negb (existsb is_Bridge h)) = true) /\
  implb (existsb is_dial_error h && finished t) (count is_logger_Error h =? 1) = true /\
  (forall w, implb (existsb is_dial_error h) (finished (tstep w t).1.1) = true) /\
  implb (finished t && negb (existsb is_dial_error h))
        ((count is_dial h =? 1) && (count is_Bridge h =? 1)) = true.
Proof.
  intros Hinv. destruct Hinv as [|[qc|err]|err|qc]; cbn; unfold count; cbn;
    repeat split; auto.
Qed.
End InboundFacts.

(** ** Claims about the inbound director *)

(** C5.  In [UnixProxyServiceInbound], once [Accept] on the local listener
    has returned an error, the accept goroutine completes no further
    [Accept] call and is never again waiting in one; [lock.Unlock()] is
    called only after such an error, and exactly once by the time the
    goroutine has returned; the goroutine returns only after such an error,
    and after one it does return (two steps of its own are enough). *)
Theorem inbound_accept_error_terminal
  (s : Netceptor) (node rservice : string) (tlscfg : TLSConfig)
  (uli : Listener) (lock : Lock) (sc : schedule) (rep : replies) :
  let p := run sc (Pool [inboundLoop s node rservice tlscfg uli lock] []) in
  let h := calls_of 0 (log p) in
  let tail := after is_Accept_error h in
  forallb (fun ev => negb (is_Accept ev)) tail = true /\
  implb (existsb is_Accept_error h) (negb (in_Accept_at 0 p)) = true /\
  count (is_Unlock lock) h = count (is_Unlock lock) tail /\
  count (is_Unlock lock) h = (if finished_at 0 p then 1 else 0) /\
  implb (finished_at 0 p) (existsb is_Accept_error h) = true /\
  implb (existsb is_Accept_error h)
        (finished_at 0 (run [(0, world rep); (0, world rep)] p)) = true.
Proof.
  intros p h tail.
  destruct (director_loop _ _ _ (inbound_reachable s node rservice tlscfg uli lock sc))
    as (t0 & ucs & Ht0 & Hloop & _).
  fold p in Ht0, Hloop. fold h in Hloop.
  destruct (inbound_loop_terminal _ _ _ _ _ _ _ _ _ Hloop)
    as (H1 & H2 & H3 & H4 & H5).
  rewrite (finished_at_lookup 0 p t0 Ht0), (in_Accept_at_lookup 0 p t0 Ht0).
  repeat (split; [assumption|]).
  change [(0, world rep); (0, world rep)] with (map (pair 0) [world rep; world rep]).
  rewrite (run_alone 0 _ p t0 Ht0).
  destruct (existsb is_Accept_error h) eqn:Herr; [|reflexivity]. cbn [implb].
  erewrite finished_at_lookup.
  2:{ simpl. destruct (threads p) as [|t0' ts]; [discriminate|]. reflexivity. }
  apply (inbound_loop_finishes _ _ _ _ _ _ _ _ _ _ Hloop Herr). reflexivity.
Qed.

(** C1, as the code has it.  In [UnixProxyServiceInbound], the goroutine of
    an accepted connection whose [s.Dial] failed calls neither [Close] nor
    [BridgeConns] on any connection; after at most one more step of its own
    it has logged the error once and returned.  The accept goroutine is not
    affected: as long as no [Accept] has failed, it accepts a waiting
    connection within three steps of its own. *)
Theorem inbound_dial_failure
  (s : Netceptor) (node rservice : string) (tlscfg : TLSConfig)
  (uli : Listener) (lock : Lock) (sc : schedule) (rep : replies)
  (j : nat) (c c' : Conn) :
  let p := run sc (Pool [inboundLoop s node rservice tlscfg uli lock] []) in
  let p' := run [(S j, world rep)] p in
  let hj := calls_of (S j) (log p) in
  let hj' := calls_of (S j) (log p') in
  implb (existsb is_dial_error hj)
        (negb (existsb (closes c) hj') && negb (existsb is_Bridge hj')
         && finished_at (S j) p' && (count is_logger_Error hj' =? 1)) = true /\
  implb (negb (existsb is_Accept_error (calls_of 0 (log p))))
        (existsb (accepts c')
           (fresh_calls 0 p (run (repeat (0, world (offering c' rep)) 3) p)))
  = true.
Proof.
  intros p p' hj hj'.
  pose proof (inbound_reachable s node rservice tlscfg uli lock sc) as Hp.
  fold p in Hp. split.
  - destruct (director_child _ _ _ j Hp) as [(t & uc & Ht & Hconn)|[_ Hnil]].
    2:{ unfold hj. rewrite Hnil. reflexivity. }
    fold hj in Hconn.
    destruct (existsb is_dial_error hj) eqn:Herr; [|reflexivity]. cbn [implb].
    assert (Hp' : p' = Pool (<[S j := (tstep (world rep) t).1.1]> (threads p)
                               ++ (tstep (world rep) t).2)
                            (log p ++ map (pair (S j)) (tstep (world rep) t).1.2)).
    { unfold p'. change [(S j, world rep)] with (map (pair (S j)) [world rep]).
      rewrite (run_alone _ _ _ _ Ht). simpl.
      destruct (tstep (world rep) t) as [[t1 evs1] new1]. simpl.
      rewrite !app_nil_r. reflexivity. }
    destruct (tstep (world rep) t) as [[t1 evs1] new1] eqn:Hstep. simpl in Hp'.
    destruct (inbound_conn_step _ _ _ _ _ _ _ _ _ _ _ Hconn Hstep) as [-> Hconn'].
    assert (Hhj' : hj' = hj ++ evs1).
    { unfold hj'. rewrite Hp'. simpl. rewrite calls_of_app, calls_of_own. reflexivity. }
    assert (Hfin : finished_at (S j) p' = finished t1).
    { apply finished_at_lookup. rewrite Hp'. simpl. rewrite app_nil_r.
      apply list_lookup_insert_eq. eapply lookup_lt_Some; eauto. }
    rewrite Hfin, Hhj'.
    destruct (inbound_conn_facts _ _ _ _ _ _ _ Hconn') as (_ & _ & Hcl & Hlog & _ & _).
    destruct (inbound_conn_facts _ _ _ _ _ _ _ Hconn) as (_ & _ & _ & _ & Hstop & _).
    specialize (Hstop (world rep)). rewrite Herr, Hstep in Hstop. simpl in Hstop.
    specialize (Hcl c). rewrite existsb_app, Herr in Hcl, Hlog. simpl in Hcl, Hlog.
    rewrite Hstop in Hlog |- *. simpl in Hlog. rewrite Hlog.
    apply andb_true_iff in Hcl as [-> ->]. reflexivity.
  - destruct (director_loop _ _ _ Hp) as (t0 & ucs & Ht0 & Hloop & _).
    change (repeat (0, world (offering c' rep)) 3)
      with (map (pair 0) (repeat (world (offering c' rep)) 3)).
    rewrite (fresh_calls_alone _ _ _ _ Ht0).
    destruct (existsb is_Accept_error (calls_of 0 (log p))) eqn:Herr; [reflexivity|].
    cbn [implb negb].
    apply (inbound_loop_accepts _ _ _ _ _ _ _ _ _ _ _ Hloop Herr). reflexivity.
Qed.

(** C1, as stated, fails: in this run connection 7 is accepted, its
    goroutine's dial fails, the goroutine logs and returns, and no call of
    the whole run closes connection 7. *)
Lemma inbound_dial_failure_leaves_conn_open :
  log inbound_example =
    [(0, Called (Accept 1) (inl 7));
     (0, Called (Go (inboundConn 0 "node" "service" 0 7)) tt);
     (1, Called (Dial 0 "node" "service" 0) (inr no_route));
     (1, Called (logger_Error "Error connecting on Receptor network: %s"
                              no_route) tt)] /\
  finished_at 1 inbound_example = true /\
  existsb (closes 7) (map snd (log inbound_example)) = false.
Proof. repeat split; reflexivity. Qed.

(** ** The outbound director *)

Section OutboundFacts.
Variables (filename : string) (qli : Listener).

Local Abbreviation loop_inv := (outbound_loop_inv filename qli).
Local Abbreviation rounds := (outbound_rounds filename qli).

Lemma outbound_rounds_snoc rs r :
  rounds (rs ++ [r]) = rounds rs ++ outbound_round filename qli r.
Proof.
  unfold outbound_rounds. rewrite flat_map_app. reflexivity.
Qed.

Lemma bridged_snoc_ok rs qc uc :
  bridged (rs ++ [(qc, inl uc)]) = bridged rs ++ [(qc, uc)].
Proof. unfold bridged. rewrite flat_map_app. reflexivity. Qed.

Lemma bridged_snoc_failed rs qc err :
  bridged (rs ++ [(qc, inr err)]) = bridged rs.
Proof. unfold bridged. rewrite flat_map_app. simpl. apply app_nil_r. Qed.

Lemma outbound_loop_step w xs t h t' evs new :
  loop_inv xs t h ->
  tstep w t = (t', evs, new) ->
  (new = [] /\ loop_inv xs t' (h ++ evs)) \/
  (exists x, new = [outboundBridge x.1 x.2] /\
             loop_inv (xs ++ [x]) t' (h ++ evs)).
Proof.
  intros Hinv Hstep. unfold tstep in Hstep. destruct Hinv.
  - (* at the head of the loop: Accept *)
    cbn in Hstep. destruct (w _ (Accept qli)) as [a|];
      injection Hstep as <- <- <-; left; (split; [reflexivity|]).
    + apply oli_accepted.
    + rewrite app_nil_r. apply oli_head.
  - destruct a as [qc|err]; cbn in Hstep.
    + (* net.Dial, in the loop itself *)
      destruct (w _ (net_Dial "unix" filename)) as [d|];
        injection Hstep as <- <- <-; left; (split; [reflexivity|]).
      * rewrite <- app_assoc. apply oli_dialed.
      * rewrite app_nil_r. apply oli_accepted.
    + (* logger.Error, then return *)
      injection Hstep as <- <- <-. left. split; [reflexivity|].
      rewrite <- app_assoc. apply oli_returned.
  - destruct d as [uc|err]; cbn in Hstep; injection Hstep as <- <- <-.
    + (* go BridgeConns *)
      right. exists (qc, uc). split; [reflexivity|].
      rewrite <- app_assoc, <- bridged_snoc_ok.
      change (rounds rs ++ _) with (rounds rs ++ outbound_round filename qli (qc, inl uc)).
      rewrite <- outbound_rounds_snoc. apply oli_turned.
    + (* logger.Error, then continue *)
      left. split; [reflexivity|].
      rewrite <- app_assoc, <- (bridged_snoc_failed rs qc err).
      change (rounds rs ++ _) with (rounds rs ++ outbound_round filename qli (qc, inr err)).
      rewrite <- outbound_rounds_snoc. apply oli_turned.
  - (* round again *)
    cbn in Hstep. injection Hstep as <- <- <-. left. split; [reflexivity|].
    rewrite app_nil_r. apply oli_head.
  - cbn in Hstep. injection Hstep as <- <- <-. left. split; [reflexivity|].
    rewrite app_nil_r. apply oli_returned.
Qed.

Lemma outbound_bridge_step w x t h t' evs new :
  outbound_bridge_inv x t h ->
  tstep w t = (t', evs, new) ->
  new = [] /\ outbound_bridge_inv x t' (h ++ evs).
Proof.
  intros Hinv Hstep. unfold tstep in Hstep. destruct Hinv; cbn in Hstep.
  - destruct (w _ (BridgeConns x.1 "receptor service" x.2 "unix socket connection"))
      as [[]|]; injection Hstep as <- <- <-; (split; [reflexivity|]).
    + apply obi_done.
    + apply obi_start.
  - injection Hstep as <- <- <-. split; [reflexivity|]. apply obi_done.
Qed.

(** Every pool the director can reach from its accept goroutine. *)
Lemma outbound_reachable sc :
  director_inv loop_inv outbound_bridge_inv
    (run sc (Pool [outboundLoop filename qli] [])).
Proof.
  apply (director_inv_run loop_inv (fun x => outboundBridge x.1 x.2)
           outbound_bridge_inv).
  - apply outbound_loop_step.
  - apply obi_start.
  - apply outbound_bridge_step.
  - apply director_inv_init. apply (oli_head filename qli []).
Qed.

Lemma outbound_rounds_all P rs :
  (forall r, forallb P (outbound_round filename qli r) = true) ->
  forallb P (rounds rs) = true.
Proof.
  intros HP. induction rs as [|r rs IH]; [reflexivity|].
  change (rounds (r :: rs)) with (outbound_round filename qli r ++ rounds rs).
  rewrite forallb_app, HP, IH. reflexivity.
Qed.

Lemma outbound_rounds_counts rs :
  count is_Go (rounds rs) = length (bridged rs) /\
  count is_Go (rounds rs) + count is_dial_error (rounds rs)
  = count is_dial (rounds rs).
Proof.
  induction rs as [|[qc [uc|err]] rs [IH1 IH2]]; [split; reflexivity|..];
    change (rounds (?r :: rs)) with (outbound_round filename qli r ++ rounds rs);
    rewrite !count_app; unfold count at 1 3 5; cbn; unfold bridged in IH1;
    split; lia.
Qed.

Lemma outbound_loop_facts xs t h :
  loop_inv xs t h ->
  forallb (fun ev => negb (is_Bridge ev)) h = true /\
  (forall c, existsb (closes c) h = false) /\
  length xs = count is_Go h /\
  count is_Go h + count is_dial_error h <= count is_dial h.
Proof.
  assert (Hb : forall l, forallb (fun ev => negb (is_Bridge ev)) (rounds l) = true)
    by (intros l; apply outbound_rounds_all; intros [qc [uc|err]]; reflexivity).
  assert (Hc : forall c l, forallb (fun ev => negb (closes c ev)) (rounds l) = true)
    by (intros c l; apply outbound_rounds_all; intros [qc [uc|err]]; reflexivity).
  intros Hinv.
  destruct Hinv as [rs|rs [qc|err]|rs qc [uc|err]|rs|rs err];
    destruct (outbound_rounds_counts rs) as [Hgo Hdial];
    rewrite ?forallb_app, ?count_app, ?Hb, <- ?Hgo;
    (split; [reflexivity|]);
    (split; [intros c; rewrite ?existsb_app, ?(existsb_none _ _ (Hc c _)); reflexivity|]);
    (split; [unfold count; cbn; lia|]); unfold count in *; cbn; lia.
Qed.

Lemma outbound_rounds_last rs : last (rounds rs) ≫= dial_error = None.
Proof.
  destruct rs as [|r rs _] using rev_ind; [reflexivity|].
  rewrite outbound_rounds_snoc. unfold outbound_round.
  rewrite last_app_cons. cbn [last].
  destruct r as [qc [uc|err]]; reflexivity.
Qed.

Lemma outbound_loop_after_failed_dial xs t h (w : answers) c :
  loop_inv xs t h ->
  w _ (Accept qli) = Some (inl c) ->
  match last h ≫= dial_error with
  | Some err =>
      (trun [w; w; w] t).1.2 =
      [Called (logger_Error ("Error connecting via Unix socket: %s" +:+ newline)
                            err) tt;
       Called (Accept qli) (inl c)]
  | None => True
  end.
Proof.
  intros Hinv Hw.
  destruct Hinv as [rs|rs a|rs qc d|rs|rs err].
  - rewrite outbound_rounds_last. exact I.
  - rewrite last_snoc. destruct a; exact I.
  - rewrite last_app_cons. cbn [last].
    destruct d as [uc|err]; [exact I|].
    cbn. unfold tstep. cbn. rewrite Hw. reflexivity.
  - rewrite outbound_rounds_last. exact I.
  - unfold outbound_accept_failed.
    rewrite last_app_cons. cbn [last]. exact I.
Qed.


End OutboundFacts.

(** ** Claims about the outbound director *)

(** C2, as the code has it.  In [UnixProxyServiceOutbound] the accept
    goroutine never calls [Close] or [BridgeConns] itself; a bridge
    goroutine is started only for a dial that succeeded; and right after a
    failed [net.Dial] the accept goroutine logs that error and goes on to
    the next [Accept] (three steps of its own, with a connection waiting). *)
Theorem outbound_dial_failure
  (filename : string) (qli : Listener) (sc : schedule) (rep : replies)
  (c c' : Conn) :
  let p := run sc (Pool [outboundLoop filename qli] []) in
  let h := calls_of 0 (log p) in
  let p' := run (repeat (0, world (offering c' rep)) 3) p in
  existsb (closes c) h = false /\
  length (threads p) = 1 + count is_Go h /\
  count is_Go h + count is_dial_error h <= count is_dial h /\
  match last h ≫= dial_error with
  | Some err =>
      fresh_calls 0 p p' =
      [Called (logger_Error ("Error connecting via Unix socket: %s" +:+ newline)
                            err) tt;
       Called (Accept qli) (inl c')]
  | None => True
  end.
Proof.
  intros p h p'.
  destruct (director_loop _ _ _ (outbound_reachable filename qli sc))
    as (t0 & xs & Ht0 & Hloop & Hlen).
  fold p in Ht0, Hloop, Hlen. fold h in Hloop.
  destruct (outbound_loop_facts _ _ _ _ _ Hloop) as (_ & Hcl & Hgo & Hdial).
  split; [apply Hcl|]. split; [rewrite Hlen, Hgo; reflexivity|].
  split; [exact Hdial|].
  unfold p'.
  change (repeat (0, world (offering c' rep)) 3)
    with (map (pair 0) (repeat (world (offering c' rep)) 3)).
  rewrite (fresh_calls_alone _ _ _ _ Ht0).
  apply (outbound_loop_after_failed_dial _ _ _ _ _ _ c' Hloop). reflexivity.
Qed.

(** C2, as stated, fails: in this run connection 7 is accepted, the dial of
    the socket fails and is logged, and no call closes connection 7; no
    goroutine was started either. *)
Lemma outbound_dial_failure_leaves_conn_open :
  log outbound_example =
    [(0, Called (Accept 1) (inl 7));
     (0, Called (net_Dial "unix" "/run/app.sock") (inr no_route));
     (0, Called (logger_Error ("Error connecting via Unix socket: %s" +:+ newline)
                              no_route) tt)] /\
  length (threads outbound_example) = 1 /\
  existsb (closes 7) (map snd (log outbound_example)) = false.
Proof. repeat split; reflexivity. Qed.

(** ** Who dials *)



(** ** Claims about setup *)

Ltac step_thread Hw :=
  try unfold tstep at 1; cbn; rewrite ?Hw; cbn.
Ltac thread_done :=
  rewrite trun_finished by reflexivity; cbn.

(** C4.  If [utils.UnixSocketListen] (inbound) or [s.ListenAndAdvertise]
    (outbound) fails, the function returns a non-nil error, made of the text
    of the failure, as soon as that call is back, and it has started no
    goroutine; if the call succeeds, the function returns nil, having
    started the accept goroutine and nothing else. *)
Theorem setup_failure_is_synchronous
  (s : Netceptor) (filename : string) (permissions : Z)
  (node rservice service : string) (tlscfg : TLSConfig) (w : answers) (n : nat) :
  let inbound :=
    UnixProxyServiceInbound s filename permissions node rservice tlscfg in
  let outbound := UnixProxyServiceOutbound s service tlscfg filename in
  match w _ (UnixSocketListen filename permissions) with
  | Some (inr err) =>
      ret_of (exec (1 + n) w inbound)
      = Some (Some (errorString ("error opening Unix socket: " +:+ Error err))) /\
      calls_in (exec (1 + n) w inbound) =
        [Called (UnixSocketListen filename permissions) (inr err)] /\
      started_by (exec (1 + n) w inbound) = []
  | Some (inl (uli, lock)) =>
      ret_of (exec (2 + n) w inbound) = Some None /\
      started_by (exec (2 + n) w inbound) =
        [inboundLoop s node rservice tlscfg uli lock]
  | None => ret_of (exec n w inbound) = None /\ started_by (exec n w inbound) = []
  end /\
  match w _ (ListenAndAdvertise s service tlscfg (outboundTags filename)) with
  | Some (inr err) =>
      ret_of (exec (1 + n) w outbound)
      = Some (Some (errorString
                      ("error listening on Receptor network: " +:+ Error err))) /\
      calls_in (exec (1 + n) w outbound) =
        [Called (ListenAndAdvertise s service tlscfg (outboundTags filename))
                (inr err)] /\
      started_by (exec (1 + n) w outbound) = []
  | Some (inl qli) =>
      ret_of (exec (2 + n) w outbound) = Some None /\
      started_by (exec (2 + n) w outbound) = [outboundLoop filename qli]
  | None => ret_of (exec n w outbound) = None /\ started_by (exec n w outbound) = []
  end.
Proof.
  intros inbound outbound. unfold ret_of, calls_in, started_by, exec. split.
  - destruct (w _ (UnixSocketListen filename permissions))
      as [[[uli lock]|err]|] eqn:Hw; cbn [repeat Nat.add trun].
    + step_thread Hw. step_thread Hw. thread_done. split; reflexivity.
    + step_thread Hw. thread_done. repeat split; reflexivity.
    + rewrite trun_blocked by (unfold tstep; cbn; rewrite Hw; reflexivity).
      split; reflexivity.
  - destruct (w _ (ListenAndAdvertise s service tlscfg (outboundTags filename)))
      as [[qli|err]|] eqn:Hw; cbn [repeat Nat.add trun].
    + step_thread Hw. step_thread Hw. thread_done. split; reflexivity.
    + step_thread Hw. thread_done. repeat split; reflexivity.
    + rewrite trun_blocked by (unfold tstep; cbn; rewrite Hw; reflexivity).
      split; reflexivity.
Qed.

(** C6, as the code has it.  The only [ListenAndAdvertise] call of
    [UnixProxyServiceOutbound] carries the map with exactly the two entries
    [type = "Unix Proxy"] and [filename = <the socket path>]. *)
Theorem outbound_advertised_tags
  (s : Netceptor) (service : string) (tlscfg : TLSConfig) (filename : string)
  (w : answers) (n : nat) (k : string) :
  let tags := outboundTags filename in
  omap advertised
       (calls_in (exec (1 + n) w (UnixProxyServiceOutbound s service tlscfg filename)))
  = match w _ (ListenAndAdvertise s service tlscfg tags) with
    | Some _ => [tags]
    | None => []
    end /\
  tags !! k = (if decide (k = "type") then Some "Unix Proxy"
               else if decide (k = "filename") then Some filename
               else None) /\
  size tags = 2.
Proof.
  intros tags. subst tags. unfold calls_in, exec. split; [|split].
  - destruct (w _ (ListenAndAdvertise s service tlscfg (outboundTags filename)))
      as [[qli|err]|] eqn:Hw.
    + cbn [repeat Nat.add trun]. step_thread Hw.
      destruct n as [|n]; cbn [repeat trun].
      * reflexivity.
      * step_thread Hw. thread_done. reflexivity.
    + cbn [repeat Nat.add trun]. step_thread Hw. thread_done. reflexivity.
    + rewrite trun_blocked by (unfold tstep; cbn; rewrite Hw; reflexivity).
      reflexivity.
  - unfold outboundTags.
    destruct (decide (k = "type")) as [->|Hk1].
    { apply lookup_insert_eq. }
    rewrite lookup_insert_ne by congruence.
    destruct (decide (k = "filename")) as [->|Hk2].
    { apply lookup_insert_eq. }
    rewrite lookup_insert_ne by congruence. apply lookup_empty.
  - unfold outboundTags.
    rewrite map_size_insert_None.
    + rewrite map_size_insert_None by apply lookup_empty.
      rewrite map_size_empty. reflexivity.
    + rewrite lookup_insert_ne by discriminate. apply lookup_empty.
Qed.

(** C6, as stated, fails: for the socket path ["/run/app.sock"] the map
    advertised is not [{kind: "unix-proxy", path: "/run/app.sock"}]; it has
    no entry [kind] at all. *)
Lemma outbound_tags_are_not_kind_path :
  omap advertised
       (calls_in (exec 1 (world (Replies None (Some (inl 1)) None None None None None))
                       (UnixProxyServiceOutbound 0 "service" 0 "/run/app.sock")))
  = [outboundTags "/run/app.sock"] /\
  outboundTags "/run/app.sock" !! "kind" = None /\
  outboundTags "/run/app.sock"
  <> <["kind" := "unix-proxy"]> (<["path" := "/run/app.sock"]> ∅).
Proof.
  split; [reflexivity|]. split; [reflexivity|].
  intros Heq. apply (f_equal (fun m => m !! "kind")) in Heq.
  vm_compute in Heq. discriminate Heq.
Qed.



(** C8.  A [UnixInProxy] whose [Permissions] pointer is nil, and a
    [unixProxyInboundCfg] whose [Permissions] is the default of its tag,
    both ask [utils.UnixSocketListen] for mode 0o600, that is [rw-------],
    whenever they get as far as listening. *)
Theorem default_socket_permissions
  (file node service tlsname : string) (tls : ClientConf) (nc : Netceptor)
  (w : answers) (n : nat) :
  let p := UnixInProxy.Build file None node service tls in
  let cfg :=
    unixProxyInboundCfg.Build
      file unixProxyInboundCfg.Permissions_default node service tlsname in
  omap listen_permissions (calls_in (exec (3 + n) w (UnixInProxy.setup p nc)))
  = match w _ (ClientConf_TLSConfig tls) with
    | Some (inl _) =>
        match w _ (UnixSocketListen file mode_0600) with
        | Some _ => [mode_0600]
        | None => []
        end
    | _ => []
    end /\
  omap listen_permissions
       (calls_in (exec (4 + n) w (unixProxyInboundCfg.Run cfg)))
  = match w _ (GetClientTLSConfig MainInstance tlsname node "receptor") with
    | Some (inl _) =>
        match w _ (UnixSocketListen file mode_0600) with
        | Some _ => [mode_0600]
        | None => []
        end
    | _ => []
    end /\
  perm_bits mode_0600
  = [true; true; false; false; false; false; false; false; false].
Proof.
  intros p cfg. unfold calls_in. cbn [Nat.add]. repeat split.
  - destruct (w _ (ClientConf_TLSConfig tls)) as [[tlscfg|err]|] eqn:Htls.
    + erewrite exec_step by (unfold tstep; cbn; rewrite Htls; reflexivity).
      destruct (w _ (UnixSocketListen file mode_0600)) as [[[uli lock]|err]|] eqn:Hw.
      * erewrite exec_step
          by (unfold tstep; cbn; change (FileMode 384) with mode_0600;
              rewrite Hw; reflexivity).
        erewrite exec_step by (unfold tstep; cbn; reflexivity).
        rewrite exec_finished by reflexivity. reflexivity.
      * erewrite exec_step
          by (unfold tstep; cbn; change (FileMode 384) with mode_0600;
              rewrite Hw; reflexivity).
        rewrite exec_finished by reflexivity. reflexivity.
      * rewrite exec_blocked; [reflexivity|].
        unfold tstep; cbn. change (FileMode 384) with mode_0600.
        rewrite Hw. reflexivity.
    + erewrite exec_step by (unfold tstep; cbn; rewrite Htls; reflexivity).
      rewrite exec_finished by reflexivity. reflexivity.
    + rewrite exec_blocked; [reflexivity|].
      unfold tstep. cbn. rewrite Htls. reflexivity.
  - erewrite exec_step by (unfold tstep; cbn; reflexivity).
    destruct (w _ (GetClientTLSConfig _ _ _ _)) as [[tlscfg|err]|] eqn:Htls.
    + erewrite exec_step by (unfold tstep; cbn; rewrite Htls; reflexivity).
      destruct (w _ (UnixSocketListen file mode_0600)) as [[[uli lock]|err]|] eqn:Hw.
      * erewrite exec_step
          by (unfold tstep; cbn;
              match goal with
              | |- context [UnixSocketListen file ?m] =>
                  change m with mode_0600
              end;
              rewrite Hw; reflexivity).
        erewrite exec_step by (unfold tstep; cbn; reflexivity).
        rewrite exec_finished by reflexivity. reflexivity.
      * erewrite exec_step
          by (unfold tstep; cbn;
              match goal with
              | |- context [UnixSocketListen file ?m] =>
                  change m with mode_0600
              end;
              rewrite Hw; reflexivity).
        rewrite exec_finished by reflexivity. reflexivity.
      * rewrite exec_blocked; [reflexivity|].
        unfold tstep. cbn.
        match goal with
        | |- context [UnixSocketListen file ?m] => change m with mode_0600
        end.
        rewrite Hw. reflexivity.
    + erewrite exec_step by (unfold tstep; cbn; rewrite Htls; reflexivity).
      rewrite exec_finished by reflexivity. reflexivity.
    + rewrite exec_blocked; [reflexivity|].
      unfold tstep. cbn. rewrite Htls. reflexivity.
Qed.

Example Permissions_default_is_0600 :
  unixProxyInboundCfg.Permissions_default = 384%Z /\ mode_0600 = 384%Z /\
  FileMode 384 = 384%Z.
Proof. repeat split; reflexivity. Qed.

(** ** pkg/utils/randstr.go *)






Section RandStrFacts.
Variable Reader : Type.
Variable rand_Int : Reader -> Z -> (Z + error) * Reader.

(** The contract of [rand.Int] on a reader that works: no error, and a
    number in [[0, max)]. *)
Hypothesis rand_Int_draws :
  forall r max, (0 < max)%Z ->
    exists idx, (rand_Int r max).1 = inl idx /\ (0 <= idx < max)%Z.




End RandStrFacts.





(** What the sample reader makes of it. *)
Example RandomString_sample :
  RandomString Z counter_Int 0%Z 5%Z = Returns ("07els", 35%Z) /\
  RandomStringWithPrefix Z counter_Int 0%Z "sock-" 5%Z = Returns ("sock-07els", 35%Z).
Proof. split; reflexivity. Qed.

(** ** More about the directors *)

(** Goroutine [S j] is the one started for the [j]-th entry of the accept
    loop's list. *)
Lemma director_child_of {A} (loop_inv : list A -> thread -> list event -> Prop)
  child_inv p j :
  director_inv loop_inv child_inv p ->
  exists t0 xs,
    threads p !! 0 = Some t0 /\
    loop_inv xs t0 (calls_of 0 (log p)) /\
    match xs !! j with
    | Some x => exists t, threads p !! S j = Some t /\
                          child_inv x t (calls_of (S j) (log p))
    | None => threads p !! S j = None /\ calls_of (S j) (log p) = []
    end.
Proof.
  intros (t0 & ts & xs & Hth & Hloop & Hlen & Hch & Hlog).
  exists t0, xs. rewrite Hth in *. simpl in *.
  split; [reflexivity|]. split; [exact Hloop|].
  destruct (xs !! j) as [x|] eqn:Hx.
  - assert (Hj : j < length ts) by (rewrite Hlen; eapply lookup_lt_Some; eauto).
    destruct (lookup_lt_is_Some_2 ts j Hj) as [t Ht].
    exists t. split; [exact Ht|]. eapply Hch; eauto.
  - apply lookup_ge_None in Hx. split.
    + apply lookup_ge_None. lia.
    + apply Hlog. lia.
Qed.

Section OutboundMore.
Variables (filename : string) (qli : Listener).

Local Abbreviation loop_inv := (outbound_loop_inv filename qli).
Local Abbreviation rounds := (outbound_rounds filename qli).

Lemma outbound_rounds_accepts rs :
  count is_Accept_ok (rounds rs) = length rs /\
  count is_dial (rounds rs) = length rs.
Proof.
  induction rs as [|[qc [uc|err]] rs [IH1 IH2]]; [split; reflexivity|..];
    change (rounds (?r :: rs)) with (outbound_round filename qli r ++ rounds rs);
    rewrite !count_app, IH1, IH2; split; reflexivity.
Qed.

Lemma outbound_loop_terminal xs t h :
  loop_inv xs t h ->
  forallb is_logger_Error (after is_Accept_error h) = true /\
  length (after is_Accept_error h) <= 1 /\
  implb (existsb is_Accept_error h) (negb (in_Accept t) && negb (in_dial t)) = true /\
  implb (finished t) (existsb is_Accept_error h) = true /\
  (forall w, implb (existsb is_Accept_error h) (finished (tstep w t).1.1) = true) /\
  count is_Accept_ok h = count is_dial h + (if in_dial t then 1 else 0).
Proof.
  assert (HnoErr : forall l, forallb (fun ev => negb (is_Accept_error ev)) (rounds l) = true)
    by (intros l; apply outbound_rounds_all; intros [qc [uc|err]]; reflexivity).
  intros Hinv.
  destruct Hinv as [rs|rs [qc|err]|rs qc [uc|err]|rs|rs err];
    destruct (outbound_rounds_accepts rs) as [Hacc Hdial];
    rewrite ?existsb_app, ?count_app, ?after_app_skip, ?(existsb_none _ _ (HnoErr _)),
      ?Hacc, ?Hdial by apply HnoErr;
    try rewrite <- (app_nil_r (rounds _)) at 1 2;
    rewrite ?after_app_skip by apply HnoErr;
    cbn; repeat split; auto; lia.
Qed.

Lemma outbound_loop_accepts xs t h (w : answers) c d :
  loop_inv xs t h ->
  existsb is_Accept_error h = false ->
  w _ (Accept qli) = Some (inl c) ->
  w _ (net_Dial "unix" filename) = Some d ->
  existsb (accepts c) (trun [w; w; w; w] t).1.2 = true.
Proof.
  assert (HnoErr : forall l, existsb is_Accept_error (rounds l) = false).
  { intros l. apply existsb_none, outbound_rounds_all.
    intros [qc [uc|err]]; reflexivity. }
  intros Hinv Herr Hw Hd.
  destruct Hinv as [rs|rs [qc|err]|rs qc [uc|err]|rs|rs err];
    rewrite ?existsb_app, ?HnoErr in Herr; cbn in Herr; try discriminate Herr;
    try destruct d as [uc'|err'];
    cbn; unfold tstep; cbn; rewrite ?Hw, ?Hd; cbn; rewrite ?Hw, ?Hd; cbn;
    rewrite ?Hw, ?Hd; cbn; rewrite ?Hw, ?Hd; cbn;
    rewrite ?Nat.eqb_refl, ?orb_true_r; reflexivity.
Qed.
End OutboundMore.

(** X1.  In [UnixProxyServiceOutbound], once [Accept] on the network
    listener has returned an error, the accept goroutine does nothing more
    than log it: it completes no further call, is never again waiting in an
    [Accept] or a dial, and has returned after one more step of its own,
    whatever the world answers; and it returns for no other reason. *)
Theorem outbound_accept_error_terminal
  (filename : string) (qli : Listener) (sc : schedule) (w : answers) :
  let p := run sc (Pool [outboundLoop filename qli] []) in
  let h := calls_of 0 (log p) in
  let tail := after is_Accept_error h in
  forallb is_logger_Error tail = true /\
  length tail <= 1 /\
  implb (existsb is_Accept_error h)
        (negb (in_Accept_at 0 p) && negb (in_dial_at 0 p)) = true /\
  implb (finished_at 0 p) (existsb is_Accept_error h) = true /\
  implb (existsb is_Accept_error h) (finished_at 0 (run [(0, w)] p)) = true.
Proof.
  intros p h tail.
  destruct (director_loop _ _ _ (outbound_reachable filename qli sc))
    as (t0 & xs & Ht0 & Hloop & _).
  fold p in Ht0, Hloop. fold h in Hloop.
  destruct (outbound_loop_terminal _ _ _ _ _ Hloop) as (H1 & H2 & H3 & H4 & H5 & _).
  rewrite (finished_at_lookup 0 p t0 Ht0), (in_Accept_at_lookup 0 p t0 Ht0),
    (in_dial_at_lookup 0 p t0 Ht0).
  repeat (split; [assumption|]).
  change [(0, w)] with (map (pair 0) [w]).
  rewrite (run_alone 0 _ p t0 Ht0).
  erewrite finished_at_lookup.
  2:{ simpl. destruct (threads p) as [|t0' ts]; [discriminate|]. reflexivity. }
  specialize (H5 w). simpl. destruct (tstep w t0) as [[t1 evs1] new1]. exact H5.
Qed.

(** X2.  In [UnixProxyServiceOutbound], as long as no [Accept] has failed
    and [net.Dial] returns (with a connection or with an error), the accept
    goroutine accepts a waiting connection within four steps of its own,
    even if no bridge ever returns. *)
Theorem outbound_loop_keeps_accepting
  (filename : string) (qli : Listener) (sc : schedule) (rep : replies)
  (c : Conn) (d : Conn + error) :
  let p := run sc (Pool [outboundLoop filename qli] []) in
  let w := world (answering c d rep) in
  implb (negb (existsb is_Accept_error (calls_of 0 (log p))))
        (existsb (accepts c) (fresh_calls 0 p (run (repeat (0, w) 4) p))) = true.
Proof.
  intros p w.
  destruct (director_loop _ _ _ (outbound_reachable filename qli sc))
    as (t0 & xs & Ht0 & Hloop & _).
  fold p in Ht0, Hloop.
  change (repeat (0, w) 4) with (map (pair 0) (repeat w 4)).
  rewrite (fresh_calls_alone _ _ _ _ Ht0).
  destruct (existsb is_Accept_error (calls_of 0 (log p))) eqn:Herr; [reflexivity|].
  cbn [implb negb].
  apply (outbound_loop_accepts _ _ _ _ _ _ c d Hloop Herr); reflexivity.
Qed.

(** X3.  In [UnixProxyServiceOutbound] there is exactly one [net.Dial] per
    accepted connection, never a second try: the successful [Accept]s of
    the accept goroutine number as many as its completed dials, plus one
    while it is inside a dial. *)
Theorem outbound_one_dial_per_accept
  (filename : string) (qli : Listener) (sc : schedule) :
  let p := run sc (Pool [outboundLoop filename qli] []) in
  let h := calls_of 0 (log p) in
  count is_Accept_ok h = count is_dial h + (if in_dial_at 0 p then 1 else 0).
Proof.
  intros p h.
  destruct (director_loop _ _ _ (outbound_reachable filename qli sc))
    as (t0 & xs & Ht0 & Hloop & _).
  fold p in Ht0, Hloop. fold h in Hloop.
  rewrite (in_dial_at_lookup 0 p t0 Ht0).
  apply (outbound_loop_terminal _ _ _ _ _ Hloop).
Qed.

Section InboundMore.
Variables (s : Netceptor) (node rservice : string) (tlscfg : TLSConfig).
Variables (uli : Listener) (lock : Lock).

Local Abbreviation loop_inv := (inbound_loop_inv s node rservice tlscfg uli lock).
Local Abbreviation conn_inv := (inbound_conn_inv s node rservice tlscfg).
Local Abbreviation rounds := (inbound_rounds s node rservice tlscfg uli).

Lemma inbound_rounds_accepted ucs : omap accepted_conn (rounds ucs) = ucs.
Proof.
  induction ucs as [|uc ucs IH]; [reflexivity|].
  change (rounds (uc :: ucs)) with (rounds [uc] ++ rounds ucs).
  rewrite omap_app, IH. reflexivity.
Qed.

Lemma inbound_loop_accepted ucs t h :
  loop_inv ucs t h -> exists rest, omap accepted_conn h = ucs ++ rest.
Proof.
  intros Hinv.
  destruct Hinv as [ucs|ucs [uc|err]|ucs uc|ucs err|ucs err];
    rewrite ?omap_app, ?inbound_rounds_accepted;
    try (exists []; rewrite app_nil_r; reflexivity);
    eexists; reflexivity.
Qed.

Lemma inbound_conn_bridges uc t h :
  conn_inv uc t h ->
  omap bridged_by h = [] \/
  exists qc, omap dialled_conn h = [qc] /\
             omap bridged_by h
             = [(uc, "unix socket service", qc, "receptor connection")].
Proof.
  intros Hinv. destruct Hinv as [|[qc|err]|err|qc]; try (left; reflexivity).
  right. exists qc. split; reflexivity.
Qed.
End InboundMore.

(** X4.  In [UnixProxyServiceInbound] goroutine [j + 1] serves the [j]-th
    accepted connection and no other: if it has called [BridgeConns], then
    once, as ["unix socket service"] with that connection and as
    ["receptor connection"] with the connection its own [s.Dial]
    returned. *)
Theorem inbound_bridges_own_connection
  (s : Netceptor) (node rservice : string) (tlscfg : TLSConfig)
  (uli : Listener) (lock : Lock) (sc : schedule) (j : nat) :
  let p := run sc (Pool [inboundLoop s node rservice tlscfg uli lock] []) in
  let hj := calls_of (S j) (log p) in
  omap bridged_by hj = [] \/
  exists uc qc,
    omap accepted_conn (calls_of 0 (log p)) !! j = Some uc /\
    omap dialled_conn hj = [qc] /\
    omap bridged_by hj = [(uc, "unix socket service", qc, "receptor connection")].
Proof.
  intros p hj.
  destruct (director_child_of _ _ _ j
              (inbound_reachable s node rservice tlscfg uli lock sc))
    as (t0 & ucs & _ & Hloop & Hchild).
  fold p in Hloop, Hchild. fold hj in Hchild.
  destruct (ucs !! j) as [uc|] eqn:Huc.
  - destruct Hchild as (t & _ & Hconn).
    destruct (inbound_conn_bridges _ _ _ _ _ _ _ Hconn) as [Hnone|(qc & Hd & Hb)];
      [left; exact Hnone|].
    right. exists uc, qc. split; [|split; assumption].
    destruct (inbound_loop_accepted _ _ _ _ _ _ _ _ _ Hloop) as (rest & ->).
    apply lookup_app_l_Some. exact Huc.
  - destruct Hchild as [_ Hnil]. left. unfold hj in *. rewrite Hnil. reflexivity.
Qed.

Section OutboundPairs.
Variables (filename : string) (qli : Listener).

Local Abbreviation loop_inv := (outbound_loop_inv filename qli).
Local Abbreviation rounds := (outbound_rounds filename qli).

Lemma paired_rounds last rs l :
  exists last', paired last (rounds rs ++ l) = bridged rs ++ paired last' l.
Proof.
  revert last. induction rs as [|[qc [uc|err]] rs IH]; intros last.
  - exists last. reflexivity.
  - destruct (IH (Some qc)) as (last' & Heq). exists last'.
    change (rounds ((qc, inl uc) :: rs) ++ l)
      with (outbound_round filename qli (qc, inl uc) ++ (rounds rs ++ l)).
    cbn. rewrite Heq. reflexivity.
  - destruct (IH (Some qc)) as (last' & Heq). exists last'.
    change (rounds ((qc, inr err) :: rs) ++ l)
      with (outbound_round filename qli (qc, inr err) ++ (rounds rs ++ l)).
    cbn. rewrite Heq. reflexivity.
Qed.

Lemma outbound_loop_paired xs t h :
  loop_inv xs t h -> exists rest, paired None h = xs ++ rest.
Proof.
  intros Hinv.
  destruct Hinv as [rs|rs a|rs qc d|rs|rs err].
  - destruct (paired_rounds None rs []) as (last' & Heq).
    rewrite app_nil_r in Heq. rewrite Heq. eexists. reflexivity.
  - destruct (paired_rounds None rs [Called (Accept qli) a]) as (last' & Heq).
    rewrite Heq. eexists. reflexivity.
  - destruct (paired_rounds None rs
                [Called (Accept qli) (inl qc); Called (net_Dial "unix" filename) d])
      as (last' & Heq).
    rewrite Heq. eexists. reflexivity.
  - destruct (paired_rounds None rs []) as (last' & Heq).
    rewrite app_nil_r in Heq. rewrite Heq. eexists. reflexivity.
  - destruct (paired_rounds None rs (outbound_accept_failed qli err))
      as (last' & Heq).
    rewrite Heq. eexists. reflexivity.
Qed.

Lemma outbound_bridge_bridges x t h :
  outbound_bridge_inv x t h ->
  omap bridged_by h = [] \/
  omap bridged_by h = [(x.1, "receptor service", x.2, "unix socket connection")].
Proof. intros Hinv. destruct Hinv; [left|right]; reflexivity. Qed.
End OutboundPairs.

(** X5.  In [UnixProxyServiceOutbound] goroutine [j + 1] bridges the [j]-th
    pair of an accepted connection and the connection [net.Dial] then
    returned for it, and no other: if it has called [BridgeConns], then
    once, as ["receptor service"] with the accepted connection and as
    ["unix socket connection"] with the dialled one. *)
Theorem outbound_bridges_own_pair
  (filename : string) (qli : Listener) (sc : schedule) (j : nat) :
  let p := run sc (Pool [outboundLoop filename qli] []) in
  let hj := calls_of (S j) (log p) in
  omap bridged_by hj = [] \/
  exists qc uc,
    paired None (calls_of 0 (log p)) !! j = Some (qc, uc) /\
    omap bridged_by hj = [(qc, "receptor service", uc, "unix socket connection")].
Proof.
  intros p hj.
  destruct (director_child_of _ _ _ j (outbound_reachable filename qli sc))
    as (t0 & xs & _ & Hloop & Hchild).
  fold p in Hloop, Hchild. fold hj in Hchild.
  destruct (xs !! j) as [[qc uc]|] eqn:Hx.
  - destruct Hchild as (t & _ & Hbr).
    destruct (outbound_bridge_bridges _ _ _ Hbr) as [Hnone|Hb];
      [left; exact Hnone|].
    right. exists qc, uc. split; [|exact Hb].
    destruct (outbound_loop_paired _ _ _ _ _ Hloop) as (rest & ->).
    apply lookup_app_l_Some. exact Hx.
  - destruct Hchild as [_ Hnil]. left. unfold hj in *. rewrite Hnil. reflexivity.
Qed.

(** ** What is logged *)

(** A property of the point a goroutine is at and of its calls, for every
    goroutine of a director. *)
Lemma director_each {A} (loop_inv : list A -> thread -> list event -> Prop)
  child_inv (Q : thread -> list event -> Prop) p i :
  director_inv loop_inv child_inv p ->
  (forall xs t h, loop_inv xs t h -> Q t h) ->
  (forall x t h, child_inv x t h -> Q t h) ->
  (forall t, threads p !! i = Some t -> Q t (calls_of i (log p))) /\
  (threads p !! i = None -> calls_of i (log p) = []).
Proof.
  intros Hp H0 Hc. destruct i as [|j].
  - destruct (director_loop _ _ _ Hp) as (t0 & xs & Ht0 & Hloop & _).
    split; [|congruence]. intros t Ht. assert (t = t0) as -> by congruence. eauto.
  - destruct (director_child _ _ _ j Hp) as [(t & x & Ht & Hchild)|[Hnone Hnil]].
    + split; [|congruence]. intros t' Ht'.
      assert (t' = t) as -> by congruence. eauto.
    + split; [congruence|]. intros _. exact Hnil.
Qed.

Lemma fresh_calls_step i w p :
  fresh_calls i p (run [(i, w)] p) =
  match threads p !! i with
  | Some t => (tstep w t).1.2
  | None => []
  end.
Proof.
  destruct (threads p !! i) as [t|] eqn:Hi.
  - change [(i, w)] with (map (pair i) [w]).
    rewrite (fresh_calls_alone _ _ _ _ Hi). simpl.
    destruct (tstep w t) as [[t1 evs1] new1]. simpl. apply app_nil_r.
  - simpl. unfold step. unfold thread in *. rewrite Hi.
    unfold fresh_calls. apply drop_all.
Qed.

Section InboundLogged.
Variables (s : Netceptor) (node rservice : string) (tlscfg : TLSConfig).
Variables (uli : Listener) (lock : Lock).

Local Abbreviation loop_inv := (inbound_loop_inv s node rservice tlscfg uli lock).
Local Abbreviation conn_inv := (inbound_conn_inv s node rservice tlscfg).
Local Abbreviation rounds := (inbound_rounds s node rservice tlscfg uli).

Lemma inbound_rounds_quiet ucs :
  omap inbound_failure (rounds ucs) = [] /\ omap logged (rounds ucs) = [].
Proof.
  induction ucs as [|uc ucs [IH1 IH2]]; [split; reflexivity|].
  change (rounds (uc :: ucs)) with (rounds [uc] ++ rounds ucs).
  rewrite !omap_app, IH1, IH2. split; reflexivity.
Qed.

Lemma inbound_loop_logged xs t h w :
  loop_inv xs t h ->
  omap inbound_failure h = omap logged h ++ omap logged (tstep w t).1.2.
Proof.
  intros Hinv. unfold tstep.
  destruct Hinv as [ucs|ucs [uc|err]|ucs uc|ucs err|ucs err];
    rewrite ?omap_app;
    rewrite ?(proj1 (inbound_rounds_quiet _)), ?(proj2 (inbound_rounds_quiet _));
    cbn.
  - destruct (w _ (Accept uli)); reflexivity.
  - reflexivity.
  - reflexivity.
  - reflexivity.
  - destruct (w _ (Unlock lock)) as [[]|]; reflexivity.
  - reflexivity.
Qed.

Lemma inbound_conn_logged uc t h w :
  conn_inv uc t h ->
  omap inbound_failure h = omap logged h ++ omap logged (tstep w t).1.2.
Proof.
  intros Hinv. unfold tstep. destruct Hinv as [|[qc|err]|err|qc]; cbn.
  - destruct (w _ (Dial s node rservice tlscfg)); reflexivity.
  - destruct (w _ (BridgeConns uc "unix socket service" qc "receptor connection"))
      as [[]|]; reflexivity.
  - reflexivity.
  - reflexivity.
  - reflexivity.
Qed.
End InboundLogged.

(** X6.  In [UnixProxyServiceInbound] every failed [Accept] and every
    failed [s.Dial] is logged, by the goroutine it happened in, with the
    error that the call returned, in order, and nothing else is logged:
    a goroutine's failures so far are what it has logged so far, followed
    by what its very next step logs. *)
Theorem inbound_failures_logged
  (s : Netceptor) (node rservice : string) (tlscfg : TLSConfig)
  (uli : Listener) (lock : Lock) (sc : schedule) (i : nat) (w : answers) :
  let p := run sc (Pool [inboundLoop s node rservice tlscfg uli lock] []) in
  let hi := calls_of i (log p) in
  omap inbound_failure hi
  = omap logged hi ++ omap logged (fresh_calls i p (run [(i, w)] p)).
Proof.
  intros p hi. rewrite fresh_calls_step.
  destruct (director_each _ _
              (fun t h => omap inbound_failure h
                          = omap logged h ++ omap logged (tstep w t).1.2)
              p i (inbound_reachable s node rservice tlscfg uli lock sc))
    as [Hsome Hnone].
  { intros xs t' h. apply inbound_loop_logged. }
  { intros x t' h. apply inbound_conn_logged. }
  fold p in Hsome, Hnone.
  destruct (threads p !! i) as [t|] eqn:Hi.
  - apply Hsome. reflexivity.
  - unfold hi. rewrite Hnone by reflexivity. reflexivity.
Qed.

Section OutboundLogged.
Variables (filename : string) (qli : Listener).

Local Abbreviation loop_inv := (outbound_loop_inv filename qli).
Local Abbreviation rounds := (outbound_rounds filename qli).

Lemma outbound_rounds_logged rs :
  omap outbound_failure (rounds rs) = omap logged (rounds rs).
Proof.
  induction rs as [|[qc [uc|err]] rs IH]; [reflexivity|..];
    change (rounds (?r :: rs)) with (outbound_round filename qli r ++ rounds rs);
    rewrite !omap_app, IH; reflexivity.
Qed.

Lemma outbound_loop_logged xs t h w :
  loop_inv xs t h ->
  omap outbound_failure h = omap logged h ++ omap logged (tstep w t).1.2.
Proof.
  intros Hinv. unfold tstep.
  destruct Hinv as [rs|rs [qc|err]|rs qc [uc|err]|rs|rs err];
    rewrite ?omap_app, ?outbound_rounds_logged, <- ?app_assoc; cbn;
    try destruct (w _ (Accept qli));
    try destruct (w _ (net_Dial "unix" filename));
    rewrite ?app_nil_r; reflexivity.
Qed.

Lemma outbound_bridge_logged x t h w :
  outbound_bridge_inv x t h ->
  omap outbound_failure h = omap logged h ++ omap logged (tstep w t).1.2.
Proof.
  intros Hinv. unfold tstep. destruct Hinv; cbn.
  - destruct (w _ (BridgeConns x.1 "receptor service" x.2 "unix socket connection"))
      as [[]|]; reflexivity.
  - reflexivity.
Qed.
End OutboundLogged.

(** X7.  In [UnixProxyServiceOutbound] every failed [Accept] and every
    failed [net.Dial] is logged with the error that the call returned, in
    order, and nothing else is logged: a goroutine's failures so far are
    what it has logged so far, followed by what its very next step logs. *)
Theorem outbound_failures_logged
  (filename : string) (qli : Listener) (sc : schedule) (i : nat) (w : answers) :
  let p := run sc (Pool [outboundLoop filename qli] []) in
  let hi := calls_of i (log p) in
  omap outbound_failure hi
  = omap logged hi ++ omap logged (fresh_calls i p (run [(i, w)] p)).
Proof.
  intros p hi. rewrite fresh_calls_step.
  destruct (director_each _ _
              (fun t h => omap outbound_failure h
                          = omap logged h ++ omap logged (tstep w t).1.2)
              p i (outbound_reachable filename qli sc))
    as [Hsome Hnone].
  { intros xs t' h. apply outbound_loop_logged. }
  { intros x t' h. apply outbound_bridge_logged. }
  fold p in Hsome, Hnone.
  destruct (threads p !! i) as [t|] eqn:Hi.
  - apply Hsome. reflexivity.
  - unfold hi. rewrite Hnone by reflexivity. reflexivity.
Qed.

(** ** What the goroutines call *)

Lemma director_log_all {A} (loop_inv : list A -> thread -> list event -> Prop)
  child_inv (P : event -> bool) p :
  director_inv loop_inv child_inv p ->
  (forall xs t h, loop_inv xs t h -> forallb P h = true) ->
  (forall x t h, child_inv x t h -> forallb P h = true) ->
  forallb (fun x => P x.2) (log p) = true.
Proof.
  intros Hp H0 Hc.
  pose proof (director_log_forall _ _ P P p Hp H0 Hc) as Hall.
  rewrite forallb_forall in Hall. apply forallb_forall. intros x Hin.
  specialize (Hall x Hin). simpl in Hall. destruct (x.1 =? 0); exact Hall.
Qed.

(** X8.  The goroutines of [UnixProxyServiceInbound] call nothing but
    [Accept] on their own listener, [go], [s.Dial] with the node, service
    and TLS configuration the function was given, [BridgeConns] under the
    names ["unix socket service"] and ["receptor connection"],
    [logger.Error], and [Unlock] on their own lock; in particular never
    [Close], never a second listen. *)
Theorem inbound_calls
  (s : Netceptor) (node rservice : string) (tlscfg : TLSConfig)
  (uli : Listener) (lock : Lock) (sc : schedule) :
  let p := run sc (Pool [inboundLoop s node rservice tlscfg uli lock] []) in
  forallb (fun x => inbound_call_ok s node rservice tlscfg uli lock x.2) (log p)
  = true.
Proof.
  intros p.
  apply (director_log_all _ _ _ _
           (inbound_reachable s node rservice tlscfg uli lock sc)).
  - intros xs t h Hinv.
    assert (Hr : forall l, forallb (inbound_call_ok s node rservice tlscfg uli lock)
                             (inbound_rounds s node rservice tlscfg uli l) = true).
    { intros l. apply inbound_rounds_all; intros uc; cbn;
        rewrite ?Nat.eqb_refl; reflexivity. }
    destruct Hinv as [ucs|ucs [uc|err]|ucs uc|ucs err|ucs err];
      rewrite ?forallb_app, ?Hr; cbn; rewrite ?Nat.eqb_refl; reflexivity.
  - intros x t h Hinv.
    destruct Hinv as [|[qc|err]|err|qc]; cbn;
      rewrite ?Nat.eqb_refl, ?String.eqb_refl; reflexivity.
Qed.

(** X9.  The goroutines of [UnixProxyServiceOutbound] call nothing but
    [Accept] on their own listener, [net.Dial] of the network ["unix"] at
    the configured socket path, [go], [BridgeConns] under the names
    ["receptor service"] and ["unix socket connection"], and
    [logger.Error]; in particular never [Close] and never [Unlock]. *)
Theorem outbound_calls
  (filename : string) (qli : Listener) (sc : schedule) :
  let p := run sc (Pool [outboundLoop filename qli] []) in
  forallb (fun x => outbound_call_ok filename qli x.2) (log p) = true.
Proof.
  intros p.
  apply (director_log_all _ _ _ _ (outbound_reachable filename qli sc)).
  - intros xs t h Hinv.
    assert (Hr : forall l, forallb (outbound_call_ok filename qli)
                             (outbound_rounds filename qli l) = true).
    { intros l. apply outbound_rounds_all. intros [qc [uc|err]]; cbn;
        rewrite ?Nat.eqb_refl, ?String.eqb_refl; reflexivity. }
    destruct Hinv as [rs|rs [qc|err]|rs qc [uc|err]|rs|rs err];
      rewrite ?forallb_app, ?Hr; cbn;
      rewrite ?Nat.eqb_refl, ?String.eqb_refl; reflexivity.
  - intros x t h Hinv. destruct Hinv; reflexivity.
Qed.

(** ** From configuration to director *)

Ltac exec_one tac :=
  erewrite exec_step by (unfold tstep; cbn; tac; reflexivity).
Ltac exec_end := rewrite exec_finished by reflexivity.
Ltac listen_mode m :=
  match goal with
  | |- context [UnixSocketListen _ ?m'] => change m' with m
  end.

(** X10.  When the TLS configuration resolves but the listen step fails,
    [Run] and [setup] return what [UnixProxyServiceInbound] /
    [UnixProxyServiceOutbound] returned: an error that carries the text of
    the cause after a fixed prefix but does not wrap it ([errors.Unwrap]
    gives nothing); no goroutine has been started. *)
Theorem listen_failure_is_text_only
  (cin : unixProxyInboundCfg.t) (cout : unixProxyOutboundCfg.t)
  (pin : UnixInProxy.t) (pout : UnixOutProxy.t) (nc : Netceptor)
  (w : answers) (n : nat) :
  let opening err := errorString ("error opening Unix socket: " +:+ Error err) in
  let listening err :=
    errorString ("error listening on Receptor network: " +:+ Error err) in
  let perms := match UnixInProxy.Permissions pin with
               | Some v => v
               | None => 384%Z
               end in
  match w _ (GetClientTLSConfig MainInstance (unixProxyInboundCfg.TLS cin)
               (unixProxyInboundCfg.RemoteNode cin) "receptor") with
  | Some (inl _) =>
      match w _ (UnixSocketListen (unixProxyInboundCfg.Filename cin)
                   (FileMode (unixProxyInboundCfg.Permissions cin))) with
      | Some (inr err) =>
          let r := exec (3 + n) w (unixProxyInboundCfg.Run cin) in
          ret_of r = Some (Some (opening err)) /\
          Unwrap (opening err) = None /\ started_by r = []
      | _ => True
      end
  | _ => True
  end /\
  match w _ (GetServerTLSConfig MainInstance (unixProxyOutboundCfg.TLS cout)) with
  | Some (inl tlscfg) =>
      match w _ (ListenAndAdvertise MainInstance (unixProxyOutboundCfg.Service cout)
                   tlscfg (outboundTags (unixProxyOutboundCfg.Filename cout))) with
      | Some (inr err) =>
          let r := exec (3 + n) w (unixProxyOutboundCfg.Run cout) in
          ret_of r = Some (Some (listening err)) /\
          Unwrap (listening err) = None /\ started_by r = []
      | _ => True
      end
  | _ => True
  end /\
  match w _ (ClientConf_TLSConfig (UnixInProxy.TLS pin)) with
  | Some (inl _) =>
      match w _ (UnixSocketListen (UnixInProxy.File pin) (FileMode perms)) with
      | Some (inr err) =>
          let r := exec (2 + n) w (UnixInProxy.setup pin nc) in
          ret_of r = Some (Some (opening err)) /\
          Unwrap (opening err) = None /\ started_by r = []
      | _ => True
      end
  | _ => True
  end /\
  match w _ (ServerConf_TLSConfig (UnixOutProxy.TLS pout)) with
  | Some (inl tlscfg) =>
      match w _ (ListenAndAdvertise nc (UnixOutProxy.Service pout) tlscfg
                   (outboundTags (UnixOutProxy.File pout))) with
      | Some (inr err) =>
          let r := exec (2 + n) w (UnixOutProxy.setup pout nc) in
          ret_of r = Some (Some (listening err)) /\
          Unwrap (listening err) = None /\ started_by r = []
      | _ => True
      end
  | _ => True
  end.
Proof.
  intros opening listening perms. unfold ret_of, started_by. cbn [Nat.add].
  repeat split.
  - destruct (w _ (GetClientTLSConfig _ _ _ _)) as [[tlscfg|e]|] eqn:Htls;
      [|exact I..].
    destruct (w _ (UnixSocketListen _ _)) as [[[uli lock]|err]|] eqn:Hw;
      [exact I| |exact I].
    exec_one idtac. exec_one ltac:(rewrite Htls).
    exec_one ltac:(listen_mode (FileMode (unixProxyInboundCfg.Permissions cin));
                   rewrite Hw).
    exec_end. repeat split; reflexivity.
  - destruct (w _ (GetServerTLSConfig _ _)) as [[tlscfg|e]|] eqn:Htls;
      [|exact I..].
    destruct (w _ (ListenAndAdvertise _ _ _ _)) as [[qli|err]|] eqn:Hw;
      [exact I| |exact I].
    exec_one idtac. exec_one ltac:(rewrite Htls). exec_one ltac:(rewrite Hw).
    exec_end. repeat split; reflexivity.
  - destruct (w _ (ClientConf_TLSConfig _)) as [[tlscfg|e]|] eqn:Htls;
      [|exact I..].
    destruct (w _ (UnixSocketListen _ _)) as [[[uli lock]|err]|] eqn:Hw;
      [exact I| |exact I].
    exec_one ltac:(rewrite Htls).
    exec_one ltac:(listen_mode (FileMode perms); rewrite Hw).
    exec_end. repeat split; reflexivity.
  - destruct (w _ (ServerConf_TLSConfig _)) as [[tlscfg|e]|] eqn:Htls;
      [|exact I..].
    destruct (w _ (ListenAndAdvertise _ _ _ _)) as [[qli|err]|] eqn:Hw;
      [exact I| |exact I].
    exec_one ltac:(rewrite Htls). exec_one ltac:(rewrite Hw).
    exec_end. repeat split; reflexivity.
Qed.

(** X11.  When the TLS configuration resolves and the listen step succeeds,
    [Run] and [setup] return nil and have started exactly one goroutine:
    the accept loop on the listener (and lock) just obtained, which for the
    inbound proxy dials the configured remote node and service, in this
    order, with the resolved TLS configuration, on [MainInstance] for [Run]
    and on the given Netceptor for [setup], and for the outbound proxy
    dials the configured socket file. *)
Theorem setup_starts_the_accept_loop
  (cin : unixProxyInboundCfg.t) (cout : unixProxyOutboundCfg.t)
  (pin : UnixInProxy.t) (pout : UnixOutProxy.t) (nc : Netceptor)
  (w : answers) (n : nat) :
  let perms := match UnixInProxy.Permissions pin with
               | Some v => v
               | None => 384%Z
               end in
  match w _ (GetClientTLSConfig MainInstance (unixProxyInboundCfg.TLS cin)
               (unixProxyInboundCfg.RemoteNode cin) "receptor") with
  | Some (inl tlscfg) =>
      match w _ (UnixSocketListen (unixProxyInboundCfg.Filename cin)
                   (FileMode (unixProxyInboundCfg.Permissions cin))) with
      | Some (inl (uli, lock)) =>
          let r := exec (4 + n) w (unixProxyInboundCfg.Run cin) in
          ret_of r = Some None /\
          started_by r =
            [inboundLoop MainInstance (unixProxyInboundCfg.RemoteNode cin)
                         (unixProxyInboundCfg.RemoteService cin) tlscfg uli lock]
      | _ => True
      end
  | _ => True
  end /\
  match w _ (GetServerTLSConfig MainInstance (unixProxyOutboundCfg.TLS cout)) with
  | Some (inl tlscfg) =>
      match w _ (ListenAndAdvertise MainInstance (unixProxyOutboundCfg.Service cout)
                   tlscfg (outboundTags (unixProxyOutboundCfg.Filename cout))) with
      | Some (inl qli) =>
          let r := exec (4 + n) w (unixProxyOutboundCfg.Run cout) in
          ret_of r = Some None /\
          started_by r = [outboundLoop (unixProxyOutboundCfg.Filename cout) qli]
      | _ => True
      end
  | _ => True
  end /\
  match w _ (ClientConf_TLSConfig (UnixInProxy.TLS pin)) with
  | Some (inl tlscfg) =>
      match w _ (UnixSocketListen (UnixInProxy.File pin) (FileMode perms)) with
      | Some (inl (uli, lock)) =>
          let r := exec (3 + n) w (UnixInProxy.setup pin nc) in
          ret_of r = Some None /\
          started_by r =
            [inboundLoop nc (UnixInProxy.RemoteNode pin)
                         (UnixInProxy.RemoteService pin) tlscfg uli lock]
      | _ => True
      end
  | _ => True
  end /\
  match w _ (ServerConf_TLSConfig (UnixOutProxy.TLS pout)) with
  | Some (inl tlscfg) =>
      match w _ (ListenAndAdvertise nc (UnixOutProxy.Service pout) tlscfg
                   (outboundTags (UnixOutProxy.File pout))) with
      | Some (inl qli) =>
          let r := exec (3 + n) w (UnixOutProxy.setup pout nc) in
          ret_of r = Some None /\
          started_by r = [outboundLoop (UnixOutProxy.File pout) qli]
      | _ => True
      end
  | _ => True
  end.
Proof.
  intros perms. unfold ret_of, started_by. cbn [Nat.add]. repeat split.
  - destruct (w _ (GetClientTLSConfig _ _ _ _)) as [[tlscfg|e]|] eqn:Htls;
      [|exact I..].
    destruct (w _ (UnixSocketListen _ _)) as [[[uli lock]|err]|] eqn:Hw;
      [|exact I..].
    exec_one idtac. exec_one ltac:(rewrite Htls).
    exec_one ltac:(listen_mode (FileMode (unixProxyInboundCfg.Permissions cin));
                   rewrite Hw).
    exec_one idtac. exec_end. split; reflexivity.
  - destruct (w _ (GetServerTLSConfig _ _)) as [[tlscfg|e]|] eqn:Htls;
      [|exact I..].
    destruct (w _ (ListenAndAdvertise _ _ _ _)) as [[qli|err]|] eqn:Hw;
      [|exact I..].
    exec_one idtac. exec_one ltac:(rewrite Htls). exec_one ltac:(rewrite Hw).
    exec_one idtac. exec_end. split; reflexivity.
  - destruct (w _ (ClientConf_TLSConfig _)) as [[tlscfg|e]|] eqn:Htls;
      [|exact I..].
    destruct (w _ (UnixSocketListen _ _)) as [[[uli lock]|err]|] eqn:Hw;
      [|exact I..].
    exec_one ltac:(rewrite Htls).
    exec_one ltac:(listen_mode (FileMode perms); rewrite Hw).
    exec_one idtac. exec_end. split; reflexivity.
  - destruct (w _ (ServerConf_TLSConfig _)) as [[tlscfg|e]|] eqn:Htls;
      [|exact I..].
    destruct (w _ (ListenAndAdvertise _ _ _ _)) as [[qli|err]|] eqn:Hw;
      [|exact I..].
    exec_one ltac:(rewrite Htls). exec_one ltac:(rewrite Hw).
    exec_one idtac. exec_end. split; reflexivity.
Qed.

Lemma perm_bits_FileMode v : perm_bits (FileMode v) = perm_bits v.
Proof.
  unfold perm_bits, FileMode. cbn [map].
  rewrite !Z.mod_pow2_bits_low by lia. reflexivity.
Qed.

(** X12.  Permissions given explicitly reach [utils.UnixSocketListen] as
    [os.FileMode] of the configured integer: its low 32 bits, so a value in
    [0, 2^32), and with the nine [rwxrwxrwx] bits of the integer itself,
    whatever its size or sign. *)
Theorem configured_permission_bits
  (file node service tlsname : string) (tls : ClientConf) (nc : Netceptor)
  (v : Z) (w : answers) (n : nat) :
  let p := UnixInProxy.Build file (Some v) node service tls in
  let cfg := unixProxyInboundCfg.Build file v node service tlsname in
  omap listen_permissions (calls_in (exec (3 + n) w (UnixInProxy.setup p nc)))
  = match w _ (ClientConf_TLSConfig tls) with
    | Some (inl _) =>
        match w _ (UnixSocketListen file (FileMode v)) with
        | Some _ => [FileMode v]
        | None => []
        end
    | _ => []
    end /\
  omap listen_permissions
       (calls_in (exec (4 + n) w (unixProxyInboundCfg.Run cfg)))
  = match w _ (GetClientTLSConfig MainInstance tlsname node "receptor") with
    | Some (inl _) =>
        match w _ (UnixSocketListen file (FileMode v)) with
        | Some _ => [FileMode v]
        | None => []
        end
    | _ => []
    end /\
  perm_bits (FileMode v) = perm_bits v /\
  (0 <= FileMode v < 2 ^ 32)%Z.
Proof.
  intros p cfg. unfold calls_in. cbn [Nat.add].
  split; [|split; [|split; [apply perm_bits_FileMode|apply Z.mod_pos_bound; lia]]].
  - destruct (w _ (ClientConf_TLSConfig tls)) as [[tlscfg|err]|] eqn:Htls.
    + exec_one ltac:(rewrite Htls).
      destruct (w _ (UnixSocketListen file (FileMode v)))
        as [[[uli lock]|err]|] eqn:Hw.
      * exec_one ltac:(listen_mode (FileMode v); rewrite Hw).
        exec_one idtac. exec_end. reflexivity.
      * exec_one ltac:(listen_mode (FileMode v); rewrite Hw).
        exec_end. reflexivity.
      * rewrite exec_blocked; [reflexivity|].
        unfold tstep; cbn. listen_mode (FileMode v). rewrite Hw. reflexivity.
    + exec_one ltac:(rewrite Htls). exec_end. reflexivity.
    + rewrite exec_blocked; [reflexivity|].
      unfold tstep. cbn. rewrite Htls. reflexivity.
  - exec_one idtac.
    destruct (w _ (GetClientTLSConfig _ _ _ _)) as [[tlscfg|err]|] eqn:Htls.
    + exec_one ltac:(rewrite Htls).
      destruct (w _ (UnixSocketListen file (FileMode v)))
        as [[[uli lock]|err]|] eqn:Hw.
      * exec_one ltac:(listen_mode (FileMode v); rewrite Hw).
        exec_one idtac. exec_end. reflexivity.
      * exec_one ltac:(listen_mode (FileMode v); rewrite Hw).
        exec_end. reflexivity.
      * rewrite exec_blocked; [reflexivity|].
        unfold tstep; cbn. listen_mode (FileMode v). rewrite Hw. reflexivity.
    + exec_one ltac:(rewrite Htls). exec_end. reflexivity.
    + rewrite exec_blocked; [reflexivity|].
      unfold tstep. cbn. rewrite Htls. reflexivity.
Qed.

(** ** More about pkg/utils/randstr.go *)

Lemma string_append_empty s : s +:+ "" = s.
Proof.
  induction s as [|a s IH]; [reflexivity|].
  change (String a s +:+ "") with (String a (s +:+ "")). f_equal. exact IH.
Qed.

Section RandStrMore.
Variable Reader : Type.
Variable rand_Int : Reader -> Z -> (Z + error) * Reader.

Section WorkingReader.
Hypothesis rand_Int_draws :
  forall r max, (0 < max)%Z ->
    exists idx, (rand_Int r max).1 = inl idx /\ (0 <= idx < max)%Z.


End WorkingReader.

Section AnyReader.
(** All that is asked of [rand.Int] here: when it succeeds, the number is
    in [[0, max)]. *)
Hypothesis rand_Int_in_range :
  forall r max idx, (0 < max)%Z ->
    (rand_Int r max).1 = inl idx -> (0 <= idx < max)%Z.


End AnyReader.

(** X15.  The edges of [RandomStringWithPrefix]: with length 0 it returns
    the prefix itself and draws nothing; with a negative length it panics
    like [RandomString], it does not return the prefix; with the empty
    prefix it is [RandomString]. *)
Theorem RandomStringWithPrefix_edges (r : Reader) (p : string) (n : Z)
  (q : positive) :
  RandomStringWithPrefix Reader rand_Int r p 0 = Returns (p, r) /\
  RandomStringWithPrefix Reader rand_Int r p (Z.neg q)
  = Panics "makeslice: cap out of range" /\
  RandomStringWithPrefix Reader rand_Int r "" n
  = RandomString Reader rand_Int r n.
Proof.
  split; [|split].
  - change (RandomStringWithPrefix Reader rand_Int r p 0)
      with (@Returns (string * Reader) (p +:+ "", r)).
    rewrite string_append_empty. reflexivity.
  - reflexivity.
  - unfold RandomStringWithPrefix.
    destruct (RandomString Reader rand_Int r n) as [[str r']|msg]; reflexivity.
Qed.
End RandStrMore.



